(** * WeChat notifier of notification-manager: batching, merging, dispatch

    A shallow embedding of [pkg/notify/notifier/wechat/wechat.go]:
    the [batch] helper, the receiver merge of [NewWechatNotifier] and the
    [Notify] dispatch path ([send], [sendMessage], [getToken],
    [invalidToken]), followed by the properties checked against it. *)

From Stdlib Require Import ZArith Lia Ascii String List.
From stdpp Require Import base option list strings gmap fin_maps.

Local Open Scope string_scope.
Local Open Scope Z_scope.

(** ** Go's [int] on a 64-bit platform *)

Module GoInt.

Definition min_int : Z := - 2 ^ 63.
Definition max_int : Z := 2 ^ 63 - 1.

(** Two's-complement wrap-around of a mathematical integer. *)
Definition wrap (z : Z) : Z := (z + 2 ^ 63) mod 2 ^ 64 - 2 ^ 63.

Definition add (a b : Z) : Z := wrap (a + b).

Definition in_range (z : Z) : Prop := min_int <= z <= max_int.

End GoInt.

(** ** The parts of Go's [strings] package the notifier uses *)

Module Strings.

(** [strip p s] is [Some r] when [s = p ++ r]. *)
Fixpoint strip (prefix s : string) : option string :=
  match prefix with
  | EmptyString => Some s
  | String p prefix' =>
      match s with
      | EmptyString => None
      | String c s' => if Ascii.eqb c p then strip prefix' s' else None
      end
  end.

(** [strings.TrimPrefix(s, prefix)]: [s] without the leading [prefix],
    or [s] itself when it does not start with [prefix]. *)
Definition TrimPrefix (s prefix : string) : string :=
  match strip prefix s with
  | Some r => r
  | None => s
  end.

(** [strings.Split(s, sep)] for a one-byte separator, the only way the
    notifier calls it: the pieces between the separators, [n + 1] pieces
    for [n] separators, so the empty string yields one empty piece. *)
Fixpoint Split (s : string) (sep : ascii) : list string :=
  match s with
  | EmptyString => [EmptyString]
  | String c s' =>
      if Ascii.eqb c sep then EmptyString :: Split s' sep
      else match Split s' sep with
           | piece :: rest => String c piece :: rest
           | [] => [String c EmptyString]
           end
  end.

(** Number of occurrences of a byte. *)
Fixpoint count (c : ascii) (s : string) : nat :=
  match s with
  | EmptyString => O
  | String d s' => (if Ascii.eqb d c then 1 else 0) + count c s'
  end.

(** [strings.Join(l, sep)] for a one-byte separator. *)
Fixpoint Join (l : list string) (sep : ascii) : string :=
  match l with
  | [] => EmptyString
  | [x] => x
  | x :: rest => x +:+ String sep (Join rest sep)
  end.

End Strings.

Definition pipe : ascii := "|"%char.

(** ** Slices *)

Definition len {A} (s : list A) : Z := Z.of_nat (length s).

(** [src[lo:]]; [None] is the run-time panic "slice bounds out of range". *)
Definition slice_from {A} (src : list A) (lo : Z) : option (list A) :=
  if (0 <=? lo) && (lo <=? len src)
  then Some (drop (Z.to_nat lo) src) else None.

(** [src[lo:hi]] for a slice whose capacity is its length. *)
Definition slice {A} (src : list A) (lo hi : Z) : option (list A) :=
  if (0 <=? lo) && (lo <=? hi) && (hi <=? len src)
  then Some (take (Z.to_nat (hi - lo)) (drop (Z.to_nat lo) src)) else None.

(** ** Constants of the package *)

Definition DefaultApiURL : string := "https://qyapi.weixin.qq.com/cgi-bin/".
Definition ToUserBatchSize : Z := 1000.
Definition ToPartyBatchSize : Z := 100.
Definition ToTagBatchSize : Z := 100.
Definition AccessTokenInvalid : Z := 42001.
Definition DefaultTemplate : string :=
  "{{ template " +:+ String (ascii_of_nat 34) "nm.default.text"
  +:+ String (ascii_of_nat 34) " . }}".
Definition MessageMaxSize : Z := 2048.

(** ** [batch] *)

(** The loop [for _, t := range sub { to += fmt.Sprintf("%s|", t) }]. *)
Definition terminate_all (sub : list string) : string :=
  fold_left (fun to t => to +:+ (t +:+ "|")) sub "".

(** [batch(src, index, size)]: the returned string paired with the value
    left in [*index]; [None] when a slice expression panics. *)
Definition batch (src : list string) (index size : Z) : option (string * Z) :=
  if len src <? index then Some ("", index)
  else
    let sub :=
      if len src <? GoInt.add index size
      then slice_from src index
      else slice src index (GoInt.add index size) in
    match sub with
    | None => None
    | Some sub => Some (terminate_all sub, GoInt.add index size)
    end.

(** ** Data model *)

(** Go [error] values, identified by their message; [nil] is [None]. *)
Definition error := string.

Inductive result (A : Type) : Type :=
| Ok (a : A)
| Err (e : error).
Arguments Ok {A} a.
Arguments Err {A} e.

(** [config.WechatConfig], the transport identity of a receiver. *)
Record WechatConfig := {
  APIURL : string;
  CorpID : string;
  AgentID : string;
  APISecret : string;
}.

(** [config.Wechat]: the three destination strings (names joined by "|"),
    the pointer to the transport config (the field [WechatConfig] of the
    source, called [Config] here because the record type has that name;
    [None] is [nil]) and the namespace answered by [GetNamespace]. *)
Record Wechat := {
  ToUser : string;
  ToParty : string;
  ToTag : string;
  Config : option WechatConfig;
  Namespace : string;
}.

(** [config.Receiver] is an interface; the notifier keeps the values
    whose dynamic type is [*config.Wechat] and that are not [nil]. *)
Inductive Receiver :=
| WechatReceiver (r : option Wechat)
| OtherReceiver.

(** Modelled from the spec: the [Clone] method of [config.Wechat], which
    is not among the sources. The spec's data model hashes "the normalized config
    (destination fields cleared)": the clone keeps the transport config
    and the namespace and carries no destination. *)
Definition Clone (w : Wechat) : Wechat :=
  {| ToUser := ""; ToParty := ""; ToTag := "";
     Config := Config w; Namespace := Namespace w |}.

Definition with_ToUser (v : string) (w : Wechat) : Wechat :=
  {| ToUser := v; ToParty := ToParty w; ToTag := ToTag w;
     Config := Config w; Namespace := Namespace w |}.
Definition with_ToParty (v : string) (w : Wechat) : Wechat :=
  {| ToUser := ToUser w; ToParty := v; ToTag := ToTag w;
     Config := Config w; Namespace := Namespace w |}.
Definition with_ToTag (v : string) (w : Wechat) : Wechat :=
  {| ToUser := ToUser w; ToParty := ToParty w; ToTag := v;
     Config := Config w; Namespace := Namespace w |}.
Definition with_Config (c : WechatConfig) (w : Wechat) : Wechat :=
  {| ToUser := ToUser w; ToParty := ToParty w; ToTag := ToTag w;
     Config := Some c; Namespace := Namespace w |}.
Definition with_APIURL (u : string) (c : WechatConfig) : WechatConfig :=
  {| APIURL := u; CorpID := CorpID c; AgentID := AgentID c;
     APISecret := APISecret c |}.

(** [weChatMessage], the body of a send request. [Text] holds the
    content of the nested [weChatMessageContent]; the recipient fields
    carry the prefix [Msg] to keep them apart from those of [Wechat], and
    [Type] is a keyword. *)
Record weChatMessage := {
  Text : string;
  MsgToUser : string;
  MsgToParty : string;
  MsgTotag : string;
  MsgAgentID : string;
  Safe : string;
  Type_ : string;
}.

(** [weChatResponse]. *)
Record weChatResponse := {
  Code : Z;
  Error : string;
  AccessToken : string;
}.

(** Channel-wide option overrides ([notifierCfg.ReceiverOpts]), as far
    as the notifier reads them. [GlobalTemplate] is [Global.Template],
    [OptWechat] is [Wechat] and [OptMessageMaxSize] is
    [Wechat.MessageMaxSize] of the source; durations are nanoseconds. *)
Record GlobalOptions := {
  TemplateFiles : list string;
  GlobalTemplate : string;
}.
Record WechatOptions := {
  NotificationTimeout : option Z;
  Template : string;
  OptMessageMaxSize : Z;
  TokenExpires : Z;
}.
Record Options := {
  Global : option GlobalOptions;
  OptWechat : option WechatOptions;
}.

Definition Second : Z := 1000000000.
Definition DefaultSendTimeout : Z := Second * 3.
Definition DefaultExpires : Z := Second * 3600 * 2.

(** ** The world the dispatch path runs in *)

(** What one call of [notifier.DoHttpRequest] followed by
    [json.Unmarshal] can yield. *)
Inductive http_reply :=
| HttpError (e : error)
| BadBody (e : error)
| Json (resp : weChatResponse).

(** What an observer of a run can see, oldest first in [history]:
    the entry into [sendMessage], an HTTP exchange with its answer, the
    start of an invalidation goroutine for a cache key, and the moment the
    invalidation takes effect. *)
Inductive event :=
| Attempt (m : weChatMessage)
| Exchange (method url : string) (body : option weChatMessage)
    (reply : http_reply)
| Go (key : string)
| Invalidated (key : string).

Definition loc := nat.

(** - [heap]: the [config.Wechat] objects reached through pointers;
    - [cache]: the process-wide access-token cache;
    - [pending]: goroutines started with [go n.invalidToken(ctx, w)] and
      not yet run, each by the pointer [w] it captured;
    - [schedule]: the scheduler's decisions, one per scheduling point;
    - [replies]: what the remote endpoints will answer, in order;
    - [trace]: the events so far, newest first. *)
Record World := {
  heap : gmap loc Wechat;
  cache : gmap string string;
  pending : list loc;
  schedule : list bool;
  replies : list http_reply;
  trace : list event;
}.

Definition history (σ : World) : list event := rev (trace σ).

Definition set_heap (h : gmap loc Wechat) (σ : World) : World :=
  {| heap := h; cache := cache σ; pending := pending σ;
     schedule := schedule σ; replies := replies σ; trace := trace σ |}.
Definition set_cache (c : gmap string string) (σ : World) : World :=
  {| heap := heap σ; cache := c; pending := pending σ;
     schedule := schedule σ; replies := replies σ; trace := trace σ |}.
Definition set_pending (p : list loc) (σ : World) : World :=
  {| heap := heap σ; cache := cache σ; pending := p;
     schedule := schedule σ; replies := replies σ; trace := trace σ |}.
Definition set_schedule (s : list bool) (σ : World) : World :=
  {| heap := heap σ; cache := cache σ; pending := pending σ;
     schedule := s; replies := replies σ; trace := trace σ |}.
Definition set_replies (r : list http_reply) (σ : World) : World :=
  {| heap := heap σ; cache := cache σ; pending := pending σ;
     schedule := schedule σ; replies := r; trace := trace σ |}.
Definition log (e : event) (σ : World) : World :=
  {| heap := heap σ; cache := cache σ; pending := pending σ;
     schedule := schedule σ; replies := replies σ; trace := e :: trace σ |}.

(** A computation either finishes with a value and a new world, panics
    (nil dereference, slice bounds) or runs out of loop fuel. *)
Inductive outcome (A : Type) : Type :=
| Done (a : A) (σ : World)
| Panic
| OutOfFuel.
Arguments Done {A} a σ.
Arguments Panic {A}.
Arguments OutOfFuel {A}.

Definition M (A : Type) : Type := World -> outcome A.

Definition ret {A} (a : A) : M A := fun σ => Done a σ.

Definition bind {A B} (m : M A) (k : A -> M B) : M B :=
  fun σ =>
    match m σ with
    | Done a σ' => k a σ'
    | Panic => Panic
    | OutOfFuel => OutOfFuel
    end.

#[export] Instance M_ret : MRet M := @ret.
#[export] Instance M_bind : MBind M := fun A B k m => bind m k.

Definition panic {A} : M A := fun _ => Panic.
Definition out_of_fuel {A} : M A := fun _ => OutOfFuel.
Definition get : M World := fun σ => Done σ σ.
Definition modify (f : World -> World) : M unit := fun σ => Done tt (f σ).

(** Pointer dereference and field update through a pointer. *)
Definition load (l : loc) : M Wechat :=
  σ ← get;
  match heap σ !! l with
  | Some w => mret w
  | None => panic
  end.

Definition store (l : loc) (f : Wechat -> Wechat) : M unit :=
  w ← load l;
  modify (fun σ => set_heap (<[l := f w]> (heap σ)) σ).

(** [w.Clone()] as an allocation: the clone is a new object. *)
Definition alloc (w : Wechat) : M loc :=
  σ ← get;
  let l := fresh (dom (heap σ)) in
  modify (fun σ => set_heap (<[l := w]> (heap σ)) σ);;
  mret l.

(** [w.WechatConfig.x] panics when the config pointer is nil. *)
Definition config_of (w : Wechat) : M WechatConfig :=
  match Config w with
  | Some c => mret c
  | None => panic
  end.

(** Modelled from the spec: [InvalidToken] of the access-token service,
    which is not among the sources: it "removes the cached entry for key,
    forcing the next GetToken to refetch". *)
Definition InvalidToken (key : string) (σ : World) : World :=
  log (Invalidated key) (set_cache (delete key (cache σ)) σ).

Definition token_key (c : WechatConfig) : string :=
  CorpID c +:+ " | " +:+ AgentID c.

(** [n.invalidToken(ctx, w)], the body of the goroutine. *)
Definition invalidToken (w : loc) (σ : World) : World :=
  match heap σ !! w ≫= Config with
  | Some c => InvalidToken (token_key c) σ
  | None => σ
  end.

(** [go n.invalidToken(ctx, w)]: the goroutine is only made runnable. *)
Definition spawn (w : loc) (key : string) (σ : World) : World :=
  log (Go key) (set_pending (pending σ ++ [w])%list σ).

(** A scheduling point: the scheduler either lets every goroutine that is
    pending run now, or none of them. *)
Definition run_pending (σ : World) : World :=
  fold_left (fun σ w => invalidToken w σ) (pending σ) (set_pending [] σ).

Definition yield : M unit :=
  σ ← get;
  match schedule σ with
  | [] => mret tt
  | now :: later =>
      modify (set_schedule later);;
      if now : bool then modify run_pending else mret tt
  end.

(** [notifier.DoHttpRequest] and the decoding of its answer: the next
    scripted reply is consumed and the exchange observed. An exhausted
    script is a transport error. *)
Definition DoHttpRequest (method url : string)
    (body : option weChatMessage) : M http_reply :=
  σ ← get;
  let reply :=
    match replies σ with
    | [] => HttpError "no response"
    | r :: _ => r
    end in
  modify (fun σ => log (Exchange method url body reply)
                     (set_replies (tail (replies σ)) σ));;
  mret reply.

Definition call {A} (r : option A) : M A :=
  match r with
  | Some a => mret a
  | None => panic
  end.

(** Modelled from the spec: [GetToken] of the access-token service, which
    is not among the sources: it "returns a cached, non-expired token if
    present; otherwise invokes fetchFn to obtain a fresh token" and, when
    the fetch fails, leaves the cache unpopulated. Expiry is real time and
    is not modelled: an expired entry is an absent one. *)
Definition GetToken (key : string) (fetch : M (result (string * Z)))
    : M (result string) :=
  σ ← get;
  match cache σ !! key with
  | Some token => mret (Ok token)
  | None =>
      r ← fetch;
      match r with
      | Ok (token, _) =>
          modify (fun σ => set_cache (<[key := token]> (cache σ)) σ);;
          mret (Ok token)
      | Err e => mret (Err e)
      end
  end.

(** ** Collaborators that are not among the sources

    The template engine, the config hash and the URL helpers of package
    [notifier], and [http.NewRequest]. The notifier is parametric in
    them. *)
Class Collaborators (Data Tmpl : Type) := {
  NewTemplate : list string -> result Tmpl;
  TemplateSplit : Tmpl -> Data -> Z -> string -> result (list string);
  Md5key : Wechat -> result string;
  UrlWithPath : string -> string -> result string;
  UrlWithParameters : string -> list (string * string) -> result string;
  NewRequest : string -> string -> option error;
}.

(** [config.Config], as far as the notifier reads it. *)
Record NotifierCfg := {
  ReceiverOpts : option Options;
  GetSecretData : string -> string -> result string;
}.

(** [Notifier]; the logger, the unused [accessToken] field and the
    pointer to the process-wide token service (the [cache] of the world)
    are left out. *)
Record Notifier {Tmpl : Type} := {
  notifierCfg : NotifierCfg;
  wechat : gmap string Wechat;
  timeout : Z;
  template : Tmpl;
  templateName : string;
  messageMaxSize : Z;
  tokenExpires : Z;
}.
Arguments Notifier Tmpl : clear implicits.

Section Wechat.

Context {Data Tmpl : Type} `{!Collaborators Data Tmpl}.

Definition set_wechat (m : gmap string Wechat) (n : Notifier Tmpl)
    : Notifier Tmpl :=
  {| notifierCfg := notifierCfg n; wechat := m; timeout := timeout n;
     template := template n; templateName := templateName n;
     messageMaxSize := messageMaxSize n; tokenExpires := tokenExpires n |}.

(** The option overrides of [NewWechatNotifier] (the block guarded by
    [opts != nil && opts.Wechat != nil]). *)
Definition apply_options (opts : option Options) (n : Notifier Tmpl)
    : Notifier Tmpl :=
  match opts with
  | None => n
  | Some o =>
      match OptWechat o with
      | None => n
      | Some wo =>
          {| notifierCfg := notifierCfg n;
             wechat := wechat n;
             timeout :=
               match NotificationTimeout wo with
               | Some t => GoInt.wrap (Second * t)
               | None => timeout n
               end;
             template := template n;
             templateName :=
               if (0 <? String.length (Template wo))%nat then Template wo
               else match Global o with
                    | Some g =>
                        if (0 <? String.length (GlobalTemplate g))%nat
                        then GlobalTemplate g else templateName n
                    | None => templateName n
                    end;
             messageMaxSize :=
               if 0 <? OptMessageMaxSize wo then OptMessageMaxSize wo
               else messageMaxSize n;
             tokenExpires :=
               if TokenExpires wo =? 0 then tokenExpires n
               else TokenExpires wo |}
      end
  end.

(** [w.F += "|" + v] when [v] is not empty, then
    [w.F = strings.TrimPrefix(w.F, "|")]. *)
Definition append_destination (current v : string) : string :=
  Strings.TrimPrefix
    (if (0 <? String.length v)%nat then current +:+ ("|" +:+ v)
     else current)
    "|".

(** [if len(c.APIURL) == 0 { c.APIURL = DefaultApiURL }]. *)
Definition default_APIURL (c : WechatConfig) : WechatConfig :=
  if (String.length (APIURL c) =? 0)%nat
  then with_APIURL DefaultApiURL c else c.

(** The [path] handed to [notifier.NewTemplate]. *)
Definition template_files (opts : option Options) : list string :=
  match opts with
  | Some o =>
      match Global o with
      | Some g => TemplateFiles g
      | None => []
      end
  | None => []
  end.

(** One iteration of [for _, r := range receivers]. *)
Definition add_receiver (m : gmap string Wechat) (r : Receiver)
    : gmap string Wechat :=
  match r with
  | OtherReceiver | WechatReceiver None => m
  | WechatReceiver (Some receiver) =>
      match Config receiver with
      | None => m
      | Some cfg =>
          let receiver := with_Config (default_APIURL cfg) receiver in
          let c := Clone receiver in
          match Md5key c with
          | Err _ => m
          | Ok key =>
              let w := default c (m !! key) in
              let w :=
                with_ToUser (append_destination (ToUser w) (ToUser receiver)) w in
              let w :=
                with_ToTag (append_destination (ToTag w) (ToTag receiver)) w in
              let w :=
                with_ToParty
                  (append_destination (ToParty w) (ToParty receiver)) w in
              <[key := w]> m
          end
      end
  end.

(** [NewWechatNotifier]; [None] is the [nil] returned when the
    templates cannot be loaded. *)
Definition NewWechatNotifier (receivers : list Receiver)
    (cfg : NotifierCfg) : option (Notifier Tmpl) :=
  let opts := ReceiverOpts cfg in
  match NewTemplate (template_files opts) with
  | Err _ => None
  | Ok tmpl =>
      let n :=
        {| notifierCfg := cfg;
           wechat := ∅;
           timeout := DefaultSendTimeout;
           template := tmpl;
           templateName := DefaultTemplate;
           messageMaxSize := MessageMaxSize;
           tokenExpires := DefaultExpires |} in
      let n := apply_options opts n in
      Some (set_wechat (fold_left add_receiver receivers (wechat n)) n)
  end.

(** [n.getToken(ctx, w)]. The call is a scheduling point: goroutines
    started earlier may or may not have run when the cache is read. *)
Definition getToken (n : Notifier Tmpl) (w : loc) : M (result string) :=
  o ← load w;
  c ← config_of o;
  let fetch : M (result (string * Z)) :=
    match UrlWithPath (APIURL c) "gettoken" with
    | Err e => mret (Err e)
    | Ok u =>
        match GetSecretData (notifierCfg n) (Namespace o) (APISecret c) with
        | Err e => mret (Err e)
        | Ok apiSecret =>
            match UrlWithParameters u [("corpsecret", apiSecret);
                                       ("corpid", CorpID c)] with
            | Err e => mret (Err e)
            | Ok u =>
                match NewRequest "GET" u with
                | Some e => mret (Err e)
                | None =>
                    reply ← DoHttpRequest "GET" u None;
                    match reply with
                    | HttpError e | BadBody e => mret (Err e)
                    | Json resp => mret (Ok (AccessToken resp, DefaultExpires))
                    end
                end
            end
        end
    end in
  yield;;
  GetToken (token_key c) fetch.

(** The closure [sendMessage] of [Notify]: one send attempt, answering
    whether to retry and with which error. Encoding [wechatMsg], a
    struct of strings, cannot fail and is not a step of its own. *)
Definition sendMessage (n : Notifier Tmpl) (w : loc)
    (wechatMsg : weChatMessage) : M (bool * option error) :=
  modify (log (Attempt wechatMsg));;
  r ← getToken n w;
  match r with
  | Err e => mret (false, Some e)
  | Ok accessToken =>
      o ← load w;
      c ← config_of o;
      match UrlWithPath (APIURL c) "message/send" with
      | Err e => mret (false, Some e)
      | Ok u =>
          match UrlWithParameters u [("access_token", accessToken)] with
          | Err e => mret (false, Some e)
          | Ok u =>
              match NewRequest "POST" u with
              | Some e => mret (false, Some e)
              | None =>
                  reply ← DoHttpRequest "POST" u (Some wechatMsg);
                  match reply with
                  | HttpError e | BadBody e => mret (false, Some e)
                  | Json weResp =>
                      if Code weResp =? 0 then mret (false, None)
                      else if Code weResp =? AccessTokenInvalid then
                        modify (spawn w (token_key c));;
                        mret (true, Some (Error weResp))
                      else mret (false, None)
                  end
              end
          end
      end
  end.

(** The closure [send] of [Notify]. *)
Definition send (n : Notifier Tmpl) (w : loc) (msg : string)
    : M (option error) :=
  o ← load w;
  c ← config_of o;
  let wechatMsg :=
    {| Text := msg;
       MsgToUser := ToUser o;
       MsgToParty := ToParty o;
       MsgTotag := ToTag o;
       MsgAgentID := AgentID c;
       Type_ := "text";
       Safe := "0" |} in
  '(retry, err) ← sendMessage n w wechatMsg;
  if retry : bool then
    '(_, err) ← sendMessage n w wechatMsg;
    mret err
  else mret err.

(** Modelled from the spec: the concurrency group [async.Group], which
    is not among the sources. [Add] "registers an independent unit of
    work"; [Wait] "blocks until all registered tasks have reported, then
    returns the collected non-nil errors". The tasks run here one after
    the other, in registration order. *)
Definition Group : Type := list (M (option error)).

Definition Add (g : Group) (task : M (option error)) : Group :=
  (g ++ [task])%list.

Fixpoint Wait (g : Group) : M (list error) :=
  match g with
  | [] => mret []
  | task :: rest =>
      r ← task;
      errs ← Wait rest;
      mret (match r with
            | Some e => e :: errs
            | None => errs
            end)
  end.

(** The body of the batching loop of [Notify], after its exit test:
    the three batches are written through the pointer [nw], then one
    task per message is registered; each task is the closure
    [send(nw, msg)], which reads [nw] when it runs. *)
Definition loop_body (n : Notifier Tmpl) (nw : loc)
    (toUser toParty toTag messages : list string)
    (us ps ts : Z) (group : Group) : M (Z * Z * Z * Group) :=
  '(u, us) ← call (batch toUser us ToUserBatchSize);
  store nw (with_ToUser u);;
  '(p, ps) ← call (batch toParty ps ToPartyBatchSize);
  store nw (with_ToParty p);;
  '(t, ts) ← call (batch toTag ts ToTagBatchSize);
  store nw (with_ToTag t);;
  mret (us, ps, ts,
        fold_left (fun g msg => Add g (send n nw msg)) messages group).

Definition exhausted (toUser toParty toTag : list string)
    (us ps ts : Z) : bool :=
  (len toUser <=? us) && (len toParty <=? ps) && (len toTag <=? ts).

(** The [for { ... }] loop of [Notify], with fuel. *)
Fixpoint batch_loop (fuel : nat) (n : Notifier Tmpl) (nw : loc)
    (toUser toParty toTag messages : list string)
    (us ps ts : Z) (group : Group) : M Group :=
  match fuel with
  | O => out_of_fuel
  | S fuel =>
      if exhausted toUser toParty toTag us ps ts then mret group
      else
        '(us, ps, ts, group) ←
          loop_body n nw toUser toParty toTag messages us ps ts group;
        batch_loop fuel n nw toUser toParty toTag messages us ps ts group
  end.

(** Fuel that always suffices: one more than the number of names. *)
Definition loop_fuel (toUser toParty toTag : list string) : nat :=
  S (length toUser + length toParty + length toTag).

(** The body of [for _, w := range n.wechat]. *)
Definition dispatch (n : Notifier Tmpl) (messages : list string)
    (group : Group) (w : Wechat) : M Group :=
  let toUser := Strings.Split (ToUser w) pipe in
  let toParty := Strings.Split (ToParty w) pipe in
  let toTag := Strings.Split (ToTag w) pipe in
  nw ← alloc (Clone w);
  batch_loop (loop_fuel toUser toParty toTag) n nw
    toUser toParty toTag messages 0 0 0 group.

Fixpoint for_each (n : Notifier Tmpl) (messages : list string)
    (ws : list Wechat) (group : Group) : M Group :=
  match ws with
  | [] => mret group
  | w :: ws =>
      group ← dispatch n messages group w;
      for_each n messages ws group
  end.

(** [Notify]; the returned [nil] is the empty list. *)
Definition Notify (n : Notifier Tmpl) (data : Data) : M (list error) :=
  match TemplateSplit (template n) data MessageMaxSize (templateName n) with
  | Err _ => mret []
  | Ok messages =>
      group ← for_each n messages (snd <$> map_to_list (wechat n)) [];
      Wait group
  end.

End Wechat.

(** ** Reading a trace *)

Fixpoint count_attempts (tr : list event) : nat :=
  match tr with
  | [] => O
  | Attempt _ :: tr => S (count_attempts tr)
  | _ :: tr => count_attempts tr
  end.

(** Number of calls of [sendMessage] so far. *)
Definition attempts (σ : World) : nat := count_attempts (trace σ).

(** The answer to the send request of the latest attempt, if the attempt
    got as far as sending one. The trace is read newest first; the send
    request is the exchange that carries a message body. *)
Fixpoint post_reply (tr : list event) : option http_reply :=
  match tr with
  | [] => None
  | Attempt _ :: _ => None
  | Exchange _ _ (Some _) reply :: _ => Some reply
  | _ :: tr => post_reply tr
  end.

(** The message bodies of the send requests, newest first. *)
Fixpoint posted (tr : list event) : list weChatMessage :=
  match tr with
  | [] => []
  | Exchange _ _ (Some m) _ :: tr => m :: posted tr
  | _ :: tr => posted tr
  end.

(** Number of recipients in a batch string ["a|b|"]. *)
Definition entries (s : string) : Z := Z.of_nat (Strings.count pipe s).

(** A destination name: not empty and free of the separator. *)
Definition valid_name (s : string) : Prop :=
  s <> "" /\ Strings.count pipe s = O.

(** ** Vocabulary of the batching properties *)

(** The names at positions [index .. index + size - 1] of [src], as far
    as they exist, each followed by the separator. *)
Definition batch_at (src : list string) (index size : Z) : string :=
  terminate_all (take (Z.to_nat size) (drop (Z.to_nat index) src)).

(** Where a call of [batch] leaves the cursor. *)
Definition next_cursor (src : list string) (index size : Z) : Z :=
  if len src <? index then index else index + size.

(** Names of the three lists that the cursors have not yet passed. *)
Definition remaining (toUser toParty toTag : list string)
    (us ps ts : Z) : nat :=
  (Z.to_nat (len toUser - us) + Z.to_nat (len toParty - ps)
   + Z.to_nat (len toTag - ts))%nat.

(** The lists fit Go's [int] with room for one more batch. *)
Definition fits (src : list string) (size : Z) : Prop :=
  len src + size <= GoInt.max_int.

(** The object behind [nw] after an iteration of the batching loop that
    started with the cursors [us], [ps], [ts]. *)
Definition written (toUser toParty toTag : list string) (o : Wechat)
    (us ps ts : Z) : Wechat :=
  with_ToTag (batch_at toTag ts ToTagBatchSize)
    (with_ToParty (batch_at toParty ps ToPartyBatchSize)
       (with_ToUser (batch_at toUser us ToUserBatchSize) o)).

(** The destination fields respect the caps of the channel. *)
Definition capped (users parties tags : string) : Prop :=
  entries users <= ToUserBatchSize /\ entries parties <= ToPartyBatchSize
  /\ entries tags <= ToTagBatchSize.

Definition capped_object (o : Wechat) : Prop :=
  capped (ToUser o) (ToParty o) (ToTag o).

Definition capped_message (m : weChatMessage) : Prop :=
  capped (MsgToUser m) (MsgToParty m) (MsgTotag m).

(** Every object on the heap respects the caps. *)
Definition capped_heap (σ : World) : Prop :=
  forall l o, heap σ !! l = Some o -> capped_object o.

(** How a call of [batch] moves the cursor: by [size] when the cursor is
    within the list or at its end, not at all when it is past the end. *)
Definition advances (src : list string) (size index index' : Z) : Prop :=
  (index <= len src -> index' = index + size)
  /\ (len src < index -> index' = index).

(** The tasks of a group are calls of [send]. *)
Definition sends {Data Tmpl : Type} `{!Collaborators Data Tmpl}
    (n : Notifier Tmpl) (g : Group) : Prop :=
  Forall (fun task => exists w msg, task = send n w msg) g.

(** The same notifier with another configured maximum message size. *)
Definition set_messageMaxSize {Tmpl : Type} (size : Z) (n : Notifier Tmpl)
    : Notifier Tmpl :=
  {| notifierCfg := notifierCfg n; wechat := wechat n; timeout := timeout n;
     template := template n; templateName := templateName n;
     messageMaxSize := size; tokenExpires := tokenExpires n |}.

(** Every object on the heap has a transport config. *)
Definition configured_heap (σ : World) : Prop :=
  forall l o, heap σ !! l = Some o -> is_Some (Config o).

(** The tasks of a group are calls of [send] on objects of the heap. *)
Definition ready {Data Tmpl : Type} `{!Collaborators Data Tmpl}
    (n : Notifier Tmpl) (g : Group) (σ : World) : Prop :=
  Forall (fun task => exists w msg,
            task = send n w msg /\ is_Some (heap σ !! w)) g.

(** An instance [Notify] can dispatch: it has a transport config and its
    three destination lists fit Go's [int]. *)
Definition dispatchable (w : Wechat) : Prop :=
  is_Some (Config w)
  /\ fits (Strings.Split (ToUser w) pipe) ToUserBatchSize
  /\ fits (Strings.Split (ToParty w) pipe) ToPartyBatchSize
  /\ fits (Strings.Split (ToTag w) pipe) ToTagBatchSize.

(** ** Vocabulary of the dispatch properties *)

(** Events that are neither the start of an attempt nor a send request:
    invalidations taking effect and token fetches. *)
Definition quiet (e : event) : Prop :=
  match e with
  | Invalidated _ | Exchange _ _ None _ => True
  | _ => False
  end.

(** [σ'] continues [σ] with quiet events only, on the same heap. *)
Definition quietly_extends (σ σ' : World) : Prop :=
  heap σ' = heap σ
  /\ exists evs, trace σ' = (evs ++ trace σ)%list /\ Forall quiet evs.

(** The error an answered send request is reported with when the answer
    is not the token-expired code. *)
Definition reply_error (reply : http_reply) : option error :=
  match reply with
  | HttpError e | BadBody e => Some e
  | Json _ => None
  end.

Definition expired (reply : http_reply) : bool :=
  match reply with
  | Json resp => Code resp =? AccessTokenInvalid
  | _ => false
  end.

(** The three ways one call of [sendMessage] with body [q] can end, as
    seen on the heap and the trace: it fails before the send request, the
    request is answered with anything but the token-expired code, or it
    is answered with that code and an invalidation goroutine is started.
    The indices are the retry flag and the error returned. *)
Inductive attempt (q : weChatMessage) (σ σ' : World)
    : bool -> option error -> Prop :=
| attempt_failed e evs :
    heap σ' = heap σ ->
    trace σ' = (evs ++ Attempt q :: trace σ)%list ->
    Forall quiet evs ->
    attempt q σ σ' false (Some e)
| attempt_answered method url reply evs :
    heap σ' = heap σ ->
    trace σ'
    = (Exchange method url (Some q) reply :: evs ++ Attempt q :: trace σ)%list ->
    Forall quiet evs ->
    expired reply = false ->
    attempt q σ σ' false (reply_error reply)
| attempt_expired method url resp key evs :
    heap σ' = heap σ ->
    trace σ'
    = (Go key :: Exchange method url (Some q) (Json resp)
         :: evs ++ Attempt q :: trace σ)%list ->
    Forall quiet evs ->
    Code resp = AccessTokenInvalid ->
    attempt q σ σ' true (Some (Error resp)).

(** Whether the latest attempt was answered with the token-expired
    code. *)
Definition expiry_signalled (σ : World) : bool :=
  match post_reply (trace σ) with
  | Some reply => expired reply
  | None => false
  end.

(** The computation finishes: no panic, no exhausted fuel. *)
Definition returns {A} (m : M A) (σ : World) : Prop :=
  exists a σ', m σ = Done a σ'.

(** The body [send] builds for the object [o] and the text [msg]. *)
Definition body_of (o : Wechat) (c : WechatConfig) (msg : string)
    : weChatMessage :=
  {| Text := msg; MsgToUser := ToUser o; MsgToParty := ToParty o;
     MsgTotag := ToTag o; MsgAgentID := AgentID c;
     Type_ := "text"; Safe := "0" |}.

(** ** Vocabulary of the merge property *)

(** A receiver given by its transport config, its namespace and its
    three destination lists. *)
Definition receiver_of (c : WechatConfig) (ns : string)
    (users parties tags : list string) : Wechat :=
  {| ToUser := Strings.Join users pipe;
     ToParty := Strings.Join parties pipe;
     ToTag := Strings.Join tags pipe;
     Config := Some c; Namespace := ns |}.

(** The normalized config of such a receiver: the default endpoint filled
    in, the destinations cleared. Its hash is the key of the receiver. *)
Definition normalized (c : WechatConfig) (ns : string) : Wechat :=
  Clone (with_Config (default_APIURL c) (receiver_of c ns [] [] [])).

(** ** A concrete set of collaborators, for running the notifier *)

Module Demo.

(** Greedy packing of rendered alert records into chunks of at most
    [max] bytes, a single oversize record going alone. *)
Fixpoint pack (max : nat) (cur : string) (records : list string)
    : list string :=
  match records with
  | [] => [cur]
  | r :: rest =>
      if (String.length cur + String.length r <=? max)%nat
      then pack max (cur +:+ r) rest
      else cur :: pack max r rest
  end.

(** Only the default template is defined. *)
Definition split (_ : unit) (data : list string) (max : Z) (name : string)
    : result (list string) :=
  if String.eqb name DefaultTemplate then
    match data with
    | [] => Ok []
    | r :: rest => Ok (pack (Z.to_nat max) r rest)
    end
  else Err ("template: " +:+ name +:+ " not defined").

Definition md5key (w : Wechat) : result string :=
  match Config w with
  | Some c => Ok (APIURL c +:+ "#" +:+ CorpID c +:+ "#" +:+ AgentID c
                  +:+ "#" +:+ APISecret c +:+ "#" +:+ Namespace w)
  | None => Ok "nil"
  end.

Definition url_with_parameters (u : string) (ps : list (string * string))
    : result string :=
  Ok (fold_left (fun u '(k, v) => u +:+ "&" +:+ k +:+ "=" +:+ v) ps
        (u +:+ "?")).

#[export] Instance collaborators : Collaborators (list string) unit := {|
  NewTemplate _ := Ok tt;
  TemplateSplit := split;
  Md5key := md5key;
  UrlWithPath u p := Ok (u +:+ p);
  UrlWithParameters := url_with_parameters;
  NewRequest _ _ := None;
|}.

Definition cfg (opts : option Options) : NotifierCfg :=
  {| ReceiverOpts := opts;
     GetSecretData _ ref := Ok ("secret-of-" +:+ ref) |}.

Definition corp : WechatConfig :=
  {| APIURL := ""; CorpID := "corp"; AgentID := "1"; APISecret := "ref" |}.

Definition wechat_of (users parties tags : string) : Wechat :=
  {| ToUser := users; ToParty := parties; ToTag := tags;
     Config := Some corp; Namespace := "ns" |}.

Definition receiver (users parties tags : string) : Receiver :=
  WechatReceiver (Some (wechat_of users parties tags)).

Definition world (cache : gmap string string) (replies : list http_reply)
    (schedule : list bool) : World :=
  {| heap := ∅; cache := cache; pending := []; schedule := schedule;
     replies := replies; trace := [] |}.

Definition token (t : string) : http_reply :=
  Json {| Code := 0; Error := ""; AccessToken := t |}.

Definition answer (code : Z) (e : string) : http_reply :=
  Json {| Code := code; Error := e; AccessToken := "" |}.

(** The returned value and the message bodies posted, oldest first. *)
Definition run {A} (m : M A) (σ : World)
    : option (A * list weChatMessage) :=
  match m σ with
  | Done a σ' => Some (a, rev (posted (trace σ')))
  | _ => None
  end.

(** The returned value and the whole history. *)
Definition observe {A} (m : M A) (σ : World) : option (A * list event) :=
  match m σ with
  | Done a σ' => Some (a, history σ')
  | _ => None
  end.

Definition digit (n : nat) : ascii := ascii_of_nat (48 + n mod 10).

(** ["p007"], ["p100"], ... *)
Definition name (prefix : string) (i : nat) : string :=
  prefix +:+ String (digit (i / 100))
               (String (digit (i / 10)) (String (digit i) "")).

Definition names (prefix : string) (count : nat) : list string :=
  name prefix <$> seq 0 count.

Definition notifier_of (opts : option Options) (receivers : list Receiver)
    : option (Notifier unit) :=
  NewWechatNotifier receivers (cfg opts).

Definition notify (opts : option Options) (receivers : list Receiver)
    (data : list string) (σ : World)
    : option (list error * list weChatMessage) :=
  n ← notifier_of opts receivers;
  run (Notify n data) σ.

Definition message (text users parties tags : string) : weChatMessage :=
  {| Text := text; MsgToUser := users; MsgToParty := parties;
     MsgTotag := tags; MsgAgentID := "1"; Safe := "0"; Type_ := "text" |}.

(** A notifier with the default settings over the given instances. *)
Definition notifier (ws : gmap string Wechat) : Notifier unit :=
  {| notifierCfg := cfg None; wechat := ws; timeout := DefaultSendTimeout;
     template := tt; templateName := DefaultTemplate;
     messageMaxSize := MessageMaxSize; tokenExpires := DefaultExpires |}.

(** Option overrides: a template name and a maximum message size. *)
Definition options (template : string) (size : Z) : option Options :=
  Some {| Global := None;
          OptWechat := Some {| NotificationTimeout := None;
                               Template := template;
                               OptMessageMaxSize := size;
                               TokenExpires := 0 |} |}.

(** A world whose heap holds one object, at location 1. *)
Definition world_of (o : Wechat) (replies : list http_reply)
    (schedule : list bool) : World :=
  set_heap {[ 1%nat := o ]} (world ∅ replies schedule).

(** One user and 101 parties: [p000|p001|...|p100]. *)
Definition crowd : Receiver :=
  receiver "u" (Strings.Join (names "p" 101) pipe) "".

Definition key_of_corp : string := "corp | 1".

Definition send_url (token : string) : string :=
  DefaultApiURL +:+ "message/send?&access_token=" +:+ token.

Definition token_url : string :=
  DefaultApiURL +:+ "gettoken?&corpsecret=secret-of-ref&corpid=corp".

(** The lists the loop of [Notify] works on for [crowd]. *)
Definition crowd_users : list string := ["u"].
Definition crowd_parties : list string := names "p" 101.
Definition crowd_tags : list string := [""].

(** The errors returned by [Notify] and the whole history. *)
Definition history_of (opts : option Options) (receivers : list Receiver)
    (data : list string) (σ : World) : option (list error * list event) :=
  n ← notifier_of opts receivers;
  observe (Notify n data) σ.

End Demo.

(** The lockstep reading of the batching loop: in every iteration that
    starts with cursors that are not negative, each of the three cursors
    advances by its batch size. *)
Definition cursors_in_lockstep : Prop :=
  forall (n : Notifier unit) nw toUser toParty toTag messages us ps ts
         (group : Group) σ us' ps' ts' (group' : Group) σ',
    0 <= us -> 0 <= ps -> 0 <= ts ->
    @loop_body _ _ Demo.collaborators n nw toUser toParty toTag messages
      us ps ts group σ
    = Done (us', ps', ts', group') σ' ->
    us' = us + ToUserBatchSize /\ ps' = ps + ToPartyBatchSize
    /\ ts' = ts + ToTagBatchSize.

(** ** Vocabulary of the further properties *)

(** [k] successive calls of [batch] on one list, each starting where the
    previous one left the cursor, as the loop of [Notify] makes them: the
    batches returned and the last cursor, or [None] if a call panics. *)
Fixpoint batch_sequence (k : nat) (src : list string) (index size : Z)
    : option (list string * Z) :=
  match k with
  | O => Some ([], index)
  | S k =>
      match batch src index size with
      | None => None
      | Some (out, index') =>
          match batch_sequence k src index' size with
          | None => None
          | Some (outs, last) => Some (out :: outs, last)
          end
      end
  end.

(** The receivers [NewWechatNotifier] passes over: values of another
    channel, nil pointers, receivers without a config and receivers whose
    normalized config cannot be hashed. *)
Definition ignored {Data Tmpl : Type} `{!Collaborators Data Tmpl}
    (r : Receiver) : Prop :=
  match r with
  | OtherReceiver | WechatReceiver None => True
  | WechatReceiver (Some receiver) =>
      match Config receiver with
      | None => True
      | Some c =>
          exists e,
            Md5key (Clone (with_Config (default_APIURL c) receiver)) = Err e
      end
  end.

(** The instance a small receiver is dispatched as: every destination
    string followed by one separator. *)
Definition terminated (w : Wechat) : Wechat :=
  {| ToUser := ToUser w +:+ "|"; ToParty := ToParty w +:+ "|";
     ToTag := ToTag w +:+ "|"; Config := Config w;
     Namespace := Namespace w |}.

(** The three lists of an instance fit one batch each. *)
Definition single_batch (w : Wechat) : Prop :=
  len (Strings.Split (ToUser w) pipe) <= ToUserBatchSize
  /\ len (Strings.Split (ToParty w) pipe) <= ToPartyBatchSize
  /\ len (Strings.Split (ToTag w) pipe) <= ToTagBatchSize.

(** The destination lists of a receiver: users, parties, tags. *)
Record Destinations := {
  users : list string;
  parties : list string;
  tags : list string;
}.

Definition valid_destinations (d : Destinations) : Prop :=
  Forall valid_name (users d) /\ Forall valid_name (parties d)
  /\ Forall valid_name (tags d).

(** Receivers of one transport identity, one per entry of [ds]. *)
Definition receivers_of (c : WechatConfig) (ns : string)
    (ds : list Destinations) : list Receiver :=
  (fun d => WechatReceiver
              (Some (receiver_of c ns (users d) (parties d) (tags d))))
    <$> ds.

(** The instance that holds the given destinations for the transport
    identity of [c] and [ns]. *)
Definition merged (c : WechatConfig) (ns : string)
    (u p t : list string) : Wechat :=
  {| ToUser := Strings.Join u pipe; ToParty := Strings.Join p pipe;
     ToTag := Strings.Join t pipe;
     Config := Some (default_APIURL c); Namespace := ns |}.

(** The tasks are calls of [send] that carry one of the given chunks. *)
Definition chunk_tasks {Data Tmpl : Type} `{!Collaborators Data Tmpl}
    (n : Notifier Tmpl) (messages : list string) (g : Group) : Prop :=
  Forall (fun task => exists w msg, task = send n w msg /\ msg ∈ messages) g.

(** A request body as [send] builds it from one of the chunks. *)
Definition well_formed (messages : list string) (m : weChatMessage) : Prop :=
  Text m ∈ messages /\ Type_ m = "text" /\ Safe m = "0".

(** The request body carries all the destinations of the instance [w],
    each destination string followed by one separator. *)
Definition carries (w : Wechat) (m : weChatMessage) : Prop :=
  MsgToUser m = ToUser w +:+ "|" /\ MsgToParty m = ToParty w +:+ "|"
  /\ MsgTotag m = ToTag w +:+ "|".

(** The tasks are calls of [send] on objects of the heap that hold the
    complete destinations of an instance satisfying [P]. *)
Definition complete_tasks {Data Tmpl : Type} `{!Collaborators Data Tmpl}
    (n : Notifier Tmpl) (P : Wechat -> Prop) (g : Group) (σ : World) : Prop :=
  Forall (fun task => exists nw msg w,
            task = send n nw msg /\ heap σ !! nw = Some (terminated w)
            /\ P w) g.

(** ** Sample inputs for the further properties *)

Module Sample.

Definition key : string := DefaultApiURL +:+ "#corp#1#ref#ns".

(** An instance as [NewWechatNotifier] stores it for [Demo.corp]. *)
Definition instance (users_ parties_ tags_ : string) : Wechat :=
  {| ToUser := users_; ToParty := parties_; ToTag := tags_;
     Config := Some (default_APIURL Demo.corp); Namespace := "ns" |}.

(** The notifier built from one receiver of [Demo.corp]. *)
Definition built (users_ parties_ tags_ : string) : Notifier unit :=
  Demo.notifier {[ key := instance users_ parties_ tags_ ]}.

(** Another app of the same corp, and the same app reached through
    another endpoint with another secret. *)
Definition other_app : WechatConfig :=
  {| APIURL := ""; CorpID := "corp"; AgentID := "2"; APISecret := "ref" |}.
Definition other_endpoint : WechatConfig :=
  {| APIURL := "https://proxy/"; CorpID := "corp"; AgentID := "1";
     APISecret := "other" |}.

Definition other_key : string := DefaultApiURL +:+ "#corp#2#ref#ns".

Definition ab : Destinations :=
  {| users := ["a"; "b"]; parties := []; tags := [] |}.
Definition c : Destinations :=
  {| users := ["c"]; parties := ["p"]; tags := [] |}.

(** Options with a timeout of five seconds, and options with a global
    template but no WeChat block. *)
Definition five_seconds : WechatOptions :=
  {| NotificationTimeout := Some 5; Template := "";
     OptMessageMaxSize := 0; TokenExpires := 0 |}.
Definition with_timeout : Options :=
  {| Global := None; OptWechat := Some five_seconds |}.
Definition global_only : Options :=
  {| Global := Some {| TemplateFiles := []; GlobalTemplate := "custom" |};
     OptWechat := None |}.

(** A world with one object at location 1 and a cached token. *)
Definition cached (o : Wechat) (replies : list http_reply)
    (schedule : list bool) : World :=
  set_heap {[ 1%nat := o ]}
    (Demo.world {[ Demo.key_of_corp := "T0" ]} replies schedule).

End Sample.

(** * Properties *)

(** ** Integers *)

Lemma wrap_in_range z : GoInt.in_range z -> GoInt.wrap z = z.
Proof.
  unfold GoInt.in_range, GoInt.wrap, GoInt.min_int, GoInt.max_int. intros H.
  rewrite Z.mod_small; lia.
Qed.

Lemma wrap_above z :
  GoInt.max_int < z <= 2 * GoInt.max_int -> GoInt.wrap z = z - 2 ^ 64.
Proof.
  unfold GoInt.wrap, GoInt.max_int. intros H.
  replace (z + 2 ^ 63) with ((z - 2 ^ 63) + 1 * 2 ^ 64) by lia.
  rewrite Z.mod_add by lia. rewrite Z.mod_small; lia.
Qed.

Lemma wrap_below z :
  2 * GoInt.min_int <= z < GoInt.min_int -> GoInt.wrap z = z + 2 ^ 64.
Proof.
  unfold GoInt.wrap, GoInt.min_int. intros H.
  replace (z + 2 ^ 63) with ((z + 2 ^ 63 + 2 ^ 64) + (-1) * 2 ^ 64) by lia.
  rewrite Z.mod_add by lia. rewrite Z.mod_small; lia.
Qed.

(** The sum of two machine integers either fits or wraps once. *)
Lemma add_cases a b :
  GoInt.in_range a -> GoInt.in_range b ->
  (GoInt.in_range (a + b) /\ GoInt.add a b = a + b)
  \/ (GoInt.max_int < a + b /\ GoInt.add a b = a + b - 2 ^ 64)
  \/ (a + b < GoInt.min_int /\ GoInt.add a b = a + b + 2 ^ 64).
Proof.
  intros Ha Hb. unfold GoInt.add.
  destruct (Z_lt_le_dec (a + b) GoInt.min_int) as [Hlo | Hlo].
  - right; right. split; [done |]. apply wrap_below.
    unfold GoInt.in_range, GoInt.min_int, GoInt.max_int in *. lia.
  - destruct (Z_lt_le_dec GoInt.max_int (a + b)) as [Hhi | Hhi].
    + right; left. split; [done |]. apply wrap_above.
      unfold GoInt.in_range, GoInt.min_int, GoInt.max_int in *. lia.
    + left. split; [done |]. by apply wrap_in_range.
Qed.

(** ** Strings *)

Lemma append_cons x (a b : string) : String x a +:+ b = String x (a +:+ b).
Proof. reflexivity. Qed.

Lemma append_empty_l (b : string) : "" +:+ b = b.
Proof. reflexivity. Qed.

Lemma append_assoc (a b c : string) : (a +:+ b) +:+ c = a +:+ (b +:+ c).
Proof.
  induction a as [| x a IH]; [done |]. rewrite !append_cons. by f_equal.
Qed.

Lemma append_empty_r (a : string) : a +:+ "" = a.
Proof.
  induction a as [| x a IH]; [done |]. rewrite append_cons. by f_equal.
Qed.

Lemma count_append c (a b : string) :
  Strings.count c (a +:+ b) = (Strings.count c a + Strings.count c b)%nat.
Proof.
  induction a as [| x a IH]; [done |]. rewrite append_cons. simpl.
  rewrite IH. lia.
Qed.

Lemma length_append (a b : string) :
  String.length (a +:+ b) = (String.length a + String.length b)%nat.
Proof. induction a as [| x a IH]; simpl; [done | by f_equal]. Qed.

(** [Split] never yields an empty list, and no piece holds a separator. *)
Lemma Split_not_nil s sep : Strings.Split s sep <> [].
Proof.
  destruct s as [| c s]; simpl; [done |].
  destruct (Ascii.eqb c sep); [done |]. by destruct (Strings.Split s sep).
Qed.

Lemma Split_pieces s sep :
  Forall (fun piece => Strings.count sep piece = O) (Strings.Split s sep).
Proof.
  induction s as [| c s IH]; simpl.
  - by repeat constructor.
  - destruct (Ascii.eqb c sep) eqn:Hc.
    + by constructor.
    + destruct (Strings.Split s sep) as [| piece rest].
      * repeat constructor. simpl. by rewrite Hc.
      * inversion IH; subst. constructor; [| done]. simpl. by rewrite Hc.
Qed.

Lemma Split_free s sep :
  Strings.count sep s = O -> Strings.Split s sep = [s].
Proof.
  induction s as [| c s IH]; simpl; [done |].
  destruct (Ascii.eqb c sep); [done |]. intros H. by rewrite IH.
Qed.

Lemma Split_append s rest sep :
  Strings.count sep s = O ->
  Strings.Split (s +:+ String sep rest) sep = s :: Strings.Split rest sep.
Proof.
  induction s as [| c s IH].
  - intros _. rewrite append_empty_l. simpl. by rewrite Ascii.eqb_refl.
  - rewrite append_cons. simpl.
    destruct (Ascii.eqb c sep); [done |]. intros H. by rewrite IH.
Qed.

(** Splitting a joined list of names gives the list back. *)
Lemma Split_Join (l : list string) :
  l <> [] -> Forall valid_name l ->
  Strings.Split (Strings.Join l pipe) pipe = l.
Proof.
  induction l as [| x l IH]; [done |]. intros _ Hl.
  inversion Hl as [| ? ? [_ Hx] Hl']; subst.
  destruct l as [| y l]; simpl.
  - by apply Split_free.
  - rewrite Split_append by done. f_equal. by apply IH.
Qed.

(** ** [batch] *)

Lemma terminate_all_acc (sub : list string) (acc : string) :
  fold_left (fun to t => to +:+ (t +:+ "|")) sub acc
  = acc +:+ terminate_all sub.
Proof.
  unfold terminate_all. revert acc.
  induction sub as [| t sub IH]; intros acc; simpl.
  - by rewrite append_empty_r.
  - rewrite IH, (IH ("" +:+ _)), append_empty_l. by rewrite append_assoc.
Qed.

Lemma terminate_all_cons t sub :
  terminate_all (t :: sub) = t +:+ ("|" +:+ terminate_all sub).
Proof.
  unfold terminate_all at 1. simpl.
  by rewrite terminate_all_acc, append_empty_l, append_assoc.
Qed.

(** A batch of separator-free names has one separator per name. *)
Lemma entries_terminate_all (sub : list string) :
  Forall (fun t => Strings.count pipe t = O) sub ->
  entries (terminate_all sub) = len sub.
Proof.
  unfold entries, len. induction 1 as [| t sub Ht _ IH]; [done |].
  rewrite terminate_all_cons, !count_append, Ht. simpl length.
  simpl Strings.count. lia.
Qed.

Lemma len_nonneg {A} (l : list A) : 0 <= len l.
Proof. unfold len. lia. Qed.

(** What [batch] returns, for any machine integers: the names at
    positions [index .. index + size - 1], as far as they exist. *)
Lemma batch_result src index size out index' :
  GoInt.in_range index -> GoInt.in_range size ->
  batch src index size = Some (out, index') ->
  out = batch_at src index size.
Proof.
  intros Hi Hs. unfold batch, slice_from, slice, batch_at.
  pose proof (len_nonneg src) as Hlen.
  destruct (Z.ltb_spec (len src) index) as [Hpast | Hin].
  - intros [= <- <-]. rewrite drop_ge; [by rewrite take_nil |].
    unfold len in *. lia.
  - destruct (add_cases index size Hi Hs) as [[_ ->] | [[Hov ->] | [Hov ->]]].
    + destruct (Z.ltb_spec (len src) (index + size)) as [Hbig | Hfit].
      * destruct (Z.leb_spec 0 index), (Z.leb_spec index (len src));
          simpl; intros [= <- <-]; try lia.
        f_equal. rewrite take_ge; [done |].
        rewrite length_drop. unfold len in *. lia.
      * destruct (Z.leb_spec 0 index), (Z.leb_spec index (index + size)),
          (Z.leb_spec (index + size) (len src));
          simpl; intros [= <- <-]; try lia.
        by replace (index + size - index) with size by lia.
    + unfold GoInt.in_range, GoInt.min_int, GoInt.max_int in *.
      destruct (Z.ltb_spec (len src) (index + size - 2 ^ 64)); [lia |].
      destruct (Z.leb_spec 0 index), (Z.leb_spec index (index + size - 2 ^ 64));
        simpl; intros [=]; lia.
    + unfold GoInt.in_range, GoInt.min_int, GoInt.max_int in *.
      destruct (Z.ltb_spec (len src) (index + size + 2 ^ 64));
        destruct (Z.leb_spec 0 index); simpl; intros [=]; lia.
Qed.

(** When the cursor is not negative and the sum cannot overflow, [batch]
    does not panic; it moves the cursor by [size] unless the cursor is
    strictly past the end, where it leaves it. *)
Lemma batch_returns src index size :
  0 <= index -> 0 <= size -> fits src size ->
  batch src index size
  = Some (batch_at src index size, next_cursor src index size).
Proof.
  intros Hi Hs Hfit. unfold fits in Hfit.
  unfold batch, slice_from, slice, batch_at, next_cursor.
  pose proof (len_nonneg src) as Hlen.
  destruct (Z.ltb_spec (len src) index) as [Hpast | Hin].
  - rewrite drop_ge; [by rewrite take_nil |]. unfold len in *. lia.
  - unfold GoInt.add. rewrite wrap_in_range
      by (unfold GoInt.in_range, GoInt.min_int, GoInt.max_int in *; lia).
    destruct (Z.ltb_spec (len src) (index + size)) as [Hbig | Hsmall].
    + destruct (Z.leb_spec 0 index), (Z.leb_spec index (len src));
        simpl; try lia.
      rewrite take_ge; [done |]. rewrite length_drop. unfold len in *. lia.
    + destruct (Z.leb_spec 0 index), (Z.leb_spec index (index + size)),
        (Z.leb_spec (index + size) (len src)); simpl; try lia.
      by replace (index + size - index) with size by lia.
Qed.

(** Once the cursor has reached the end of the list the batch is empty. *)
Lemma batch_exhausted src index size out index' :
  len src <= index ->
  batch src index size = Some (out, index') -> out = "".
Proof.
  intros Hpast. unfold batch, slice_from, slice.
  destruct (Z.ltb_spec (len src) index); [by intros [= <- _] |].
  assert (index = len src) as -> by lia.
  assert (drop (Z.to_nat (len src)) src = []) as Hdrop
    by (apply drop_ge; unfold len; lia).
  destruct (len src <? GoInt.add (len src) size).
  - destruct (_ && _); [| done]. rewrite Hdrop. by intros [= <- _].
  - destruct (_ && _); [| done]. rewrite Hdrop, take_nil. by intros [= <- _].
Qed.

Lemma batch_at_exhausted src index size :
  len src <= index -> batch_at src index size = "".
Proof.
  intros H. unfold batch_at. rewrite drop_ge; [by rewrite take_nil |].
  unfold len in H. lia.
Qed.

Lemma batch_at_entries s index size :
  0 <= entries (batch_at (Strings.Split s pipe) index size) <= Z.max 0 size.
Proof.
  unfold batch_at. rewrite entries_terminate_all.
  - unfold len. rewrite length_take. lia.
  - apply Forall_take, Forall_drop, Split_pieces.
Qed.

(** ** The monad *)

Lemma bind_Done {A B} (m : M A) (k : A -> M B) σ a σ' :
  m σ = Done a σ' -> (m ≫= k) σ = k a σ'.
Proof. intros H. unfold mbind, M_bind, bind. by rewrite H. Qed.

Lemma bind_inv {A B} (m : M A) (k : A -> M B) σ b σ'' :
  (m ≫= k) σ = Done b σ'' ->
  exists a σ', m σ = Done a σ' /\ k a σ' = Done b σ''.
Proof.
  unfold mbind, M_bind, bind. destruct (m σ) as [a σ' | |]; [| done | done].
  intros H. by exists a, σ'.
Qed.

Lemma store_Done l f σ o :
  heap σ !! l = Some o ->
  store l f σ = Done tt (set_heap (<[l := f o]> (heap σ)) σ).
Proof.
  intros H. unfold store, load.
  unfold mbind, M_bind, bind, get, modify, mret, M_ret, ret. by rewrite H.
Qed.

Lemma call_Some {A} (a : A) σ : call (Some a) σ = Done a σ.
Proof. reflexivity. Qed.

(** ** The batching loop *)

Section Loop.

Context {Data Tmpl : Type} `{!Collaborators Data Tmpl}.
Variable n : Notifier Tmpl.
Variable nw : loc.
Variables toUser toParty toTag messages : list string.

Lemma fold_Add (g : Group) (tasks : list (M (option error))) :
  fold_left Add tasks g = (g ++ tasks)%list.
Proof.
  revert g. induction tasks as [| t tasks IH]; intros g; simpl.
  - by rewrite app_nil_r.
  - rewrite IH. unfold Add. by rewrite <- app_assoc.
Qed.

Lemma fold_Add_send (g : Group) :
  fold_left (fun g msg => Add g (send n nw msg)) messages g
  = (g ++ (send n nw <$> messages))%list.
Proof.
  rewrite <- fold_Add. generalize messages. intros l. revert g.
  induction l as [| m l IH]; intros g; simpl; [done |]. apply IH.
Qed.

(** One iteration, in closed form. *)
Lemma loop_body_Done us ps ts (group : Group) σ o :
  fits toUser ToUserBatchSize -> fits toParty ToPartyBatchSize ->
  fits toTag ToTagBatchSize ->
  0 <= us -> 0 <= ps -> 0 <= ts ->
  heap σ !! nw = Some o ->
  loop_body n nw toUser toParty toTag messages us ps ts group σ
  = Done (next_cursor toUser us ToUserBatchSize,
          next_cursor toParty ps ToPartyBatchSize,
          next_cursor toTag ts ToTagBatchSize,
          (group ++ (send n nw <$> messages))%list)
         (set_heap (<[nw := written toUser toParty toTag o us ps ts]> (heap σ)) σ).
Proof.
  intros Fu Fp Ft Hus Hps Hts Ho. unfold loop_body.
  rewrite (batch_returns toUser us) by done.
  rewrite (batch_returns toParty ps) by done.
  rewrite (batch_returns toTag ts) by done.
  rewrite fold_Add_send.
  rewrite (bind_Done _ _ _ _ _ (call_Some _ _)).
  rewrite (bind_Done _ _ _ _ _ (store_Done nw _ _ _ Ho)).
  rewrite (bind_Done _ _ _ _ _ (call_Some _ _)).
  rewrite (bind_Done _ _ _ _ _
             (store_Done nw _ (set_heap _ _) _ (lookup_insert_eq _ _ _))).
  rewrite (bind_Done _ _ _ _ _ (call_Some _ _)).
  rewrite (bind_Done _ _ _ _ _
             (store_Done nw _ (set_heap _ _) _ (lookup_insert_eq _ _ _))).
  unfold mret, M_ret, ret, set_heap, written. simpl.
  by rewrite !insert_insert_eq.
Qed.

Lemma next_cursor_nonneg src index size :
  0 <= index -> 0 <= size -> 0 <= next_cursor src index size.
Proof. unfold next_cursor. destruct (_ <? _); lia. Qed.

Lemma remaining_decreases us ps ts :
  exhausted toUser toParty toTag us ps ts = false ->
  (remaining toUser toParty toTag
     (next_cursor toUser us ToUserBatchSize)
     (next_cursor toParty ps ToPartyBatchSize)
     (next_cursor toTag ts ToTagBatchSize)
   < remaining toUser toParty toTag us ps ts)%nat.
Proof.
  unfold exhausted, remaining, next_cursor,
    ToUserBatchSize, ToPartyBatchSize, ToTagBatchSize.
  intros H. apply andb_false_iff in H as [H | H];
    [apply andb_false_iff in H as [H | H] |];
    apply Z.leb_gt in H;
    destruct (Z.ltb_spec (len toUser) us), (Z.ltb_spec (len toParty) ps),
      (Z.ltb_spec (len toTag) ts); lia.
Qed.

(** With more fuel than names remain, the loop runs to its exit. *)
Lemma batch_loop_Done fuel :
  fits toUser ToUserBatchSize -> fits toParty ToPartyBatchSize ->
  fits toTag ToTagBatchSize ->
  forall us ps ts (group : Group) σ,
    0 <= us -> 0 <= ps -> 0 <= ts ->
    is_Some (heap σ !! nw) ->
    (remaining toUser toParty toTag us ps ts < fuel)%nat ->
    exists group' σ',
      batch_loop fuel n nw toUser toParty toTag messages us ps ts group σ
      = Done group' σ'.
Proof.
  intros Fu Fp Ft. induction fuel as [| fuel IH];
    intros us ps ts group σ Hus Hps Hts [o Ho] Hfuel; [lia |].
  simpl. destruct (exhausted toUser toParty toTag us ps ts) eqn:Hex.
  - by eexists _, _.
  - rewrite (bind_Done _ _ _ _ _
               (loop_body_Done us ps ts group σ o Fu Fp Ft Hus Hps Hts Ho)).
    apply IH.
    + by apply next_cursor_nonneg.
    + by apply next_cursor_nonneg.
    + by apply next_cursor_nonneg.
    + simpl. rewrite lookup_insert_eq. by eexists.
    + pose proof (remaining_decreases us ps ts Hex). lia.
Qed.

End Loop.

(** ** Steps of the dispatch path *)

Lemma mret_inv {A} (a b : A) σ σ' :
  (mret a : M A) σ = Done b σ' -> a = b /\ σ = σ'.
Proof. by intros [= -> ->]. Qed.

Lemma modify_inv f σ u σ' : modify f σ = Done u σ' -> σ' = f σ.
Proof. by intros [= _ <-]. Qed.

Lemma get_inv σ s σ' : get σ = Done s σ' -> s = σ /\ σ' = σ.
Proof. intros [= H1 H2]. by subst. Qed.

Lemma load_inv l σ o σ' :
  load l σ = Done o σ' -> σ' = σ /\ heap σ !! l = Some o.
Proof.
  unfold load, mbind, M_bind, bind, get. simpl.
  destruct (heap σ !! l); [| done]. by intros [= <- <-].
Qed.

Lemma config_of_inv o σ c σ' :
  config_of o σ = Done c σ' -> σ' = σ /\ Config o = Some c.
Proof.
  unfold config_of. destruct (Config o); [| done]. by intros [= <- <-].
Qed.

Lemma call_inv {A} (r : option A) σ a σ' :
  call r σ = Done a σ' -> r = Some a /\ σ' = σ.
Proof. destruct r; [| done]. by intros [= <- <-]. Qed.

Lemma store_inv l f σ u σ' :
  store l f σ = Done u σ' ->
  exists o, heap σ !! l = Some o
            /\ σ' = set_heap (<[l := f o]> (heap σ)) σ.
Proof.
  unfold store. intros H. apply bind_inv in H as (o & σ1 & Hl & H).
  apply load_inv in Hl as [-> Hl]. apply modify_inv in H. by exists o.
Qed.

Lemma DoHttpRequest_inv method url body σ reply σ' :
  DoHttpRequest method url body σ = Done reply σ' ->
  heap σ' = heap σ
  /\ trace σ' = Exchange method url body reply :: trace σ.
Proof. unfold DoHttpRequest. by intros [= <- <-]. Qed.

(** *** Quiet continuations *)

Lemma quietly_refl σ : quietly_extends σ σ.
Proof. split; [done |]. by exists []. Qed.

Lemma quietly_trans σ1 σ2 σ3 :
  quietly_extends σ1 σ2 -> quietly_extends σ2 σ3 -> quietly_extends σ1 σ3.
Proof.
  intros [Hh1 (evs1 & Ht1 & Hq1)] [Hh2 (evs2 & Ht2 & Hq2)]. split.
  - congruence.
  - exists (evs2 ++ evs1)%list. split.
    + by rewrite Ht2, Ht1, app_assoc.
    + by apply Forall_app.
Qed.

Lemma quietly_step σ σ' e :
  heap σ' = heap σ -> trace σ' = e :: trace σ -> quiet e ->
  quietly_extends σ σ'.
Proof.
  intros Hh Ht He. split; [done |]. exists [e]. split; [done |].
  by constructor.
Qed.

Lemma quietly_silent σ σ' :
  heap σ' = heap σ -> trace σ' = trace σ -> quietly_extends σ σ'.
Proof. intros Hh Ht. split; [done |]. by exists []. Qed.

Lemma invalidToken_quiet w σ : quietly_extends σ (invalidToken w σ).
Proof.
  unfold invalidToken. destruct (heap σ !! w ≫= Config).
  - by apply quietly_step with (e := Invalidated (token_key w0)).
  - apply quietly_refl.
Qed.

Lemma run_pending_quiet σ : quietly_extends σ (run_pending σ).
Proof.
  unfold run_pending.
  assert (forall ws σ0, quietly_extends σ σ0 ->
            quietly_extends σ (fold_left (fun σ w => invalidToken w σ) ws σ0))
    as Hfold.
  { induction ws as [| w ws IH]; intros σ0 H0; simpl; [done |].
    apply IH. eapply quietly_trans; [done | apply invalidToken_quiet]. }
  apply Hfold. by apply quietly_silent.
Qed.

Lemma yield_quiet σ u σ' : yield σ = Done u σ' -> quietly_extends σ σ'.
Proof.
  unfold yield, mbind, M_bind, bind, get, modify, mret, M_ret, ret.
  destruct (schedule σ) as [| [] later]; simpl; intros [= _ <-].
  - apply quietly_refl.
  - eapply quietly_trans; [| apply run_pending_quiet].
    by apply quietly_silent.
  - by apply quietly_silent.
Qed.

Section Dispatch.

Context {Data Tmpl : Type} `{!Collaborators Data Tmpl}.
Variable n : Notifier Tmpl.

Lemma getToken_quiet w σ r σ' :
  getToken n w σ = Done r σ' -> quietly_extends σ σ'.
Proof.
  unfold getToken. intros H.
  apply bind_inv in H as (o & σ1 & Ho & H). apply load_inv in Ho as [-> _].
  apply bind_inv in H as (c & σ1 & Hc & H).
  apply config_of_inv in Hc as [-> _].
  apply bind_inv in H as (u & σ1 & Hy & H). apply yield_quiet in Hy.
  eapply quietly_trans; [done |]. clear Hy. revert H.
  unfold GetToken. intros H.
  apply bind_inv in H as (s & σ2 & Hg & H). apply get_inv in Hg as [-> ->].
  destruct (cache σ1 !! token_key c).
  { apply mret_inv in H as [_ <-]. apply quietly_refl. }
  apply bind_inv in H as (f & σ2 & Hf & H).
  assert (quietly_extends σ1 σ2) as Hq.
  { clear H. revert Hf.
    repeat case_match;
      try (by intros [_ <-]%mret_inv; apply quietly_refl).
    intros Hf. apply bind_inv in Hf as (reply & σ3 & Hd & Hf).
    apply DoHttpRequest_inv in Hd as [Hh Ht].
    assert (σ2 = σ3) as -> by (by destruct reply; apply mret_inv in Hf as [_ ->]).
    by eapply quietly_step. }
  eapply quietly_trans; [done |].
  destruct f as [[token lifetime] | e].
  - apply bind_inv in H as (? & σ3 & Hm & H). apply modify_inv in Hm.
    apply mret_inv in H as [_ <-]. subst σ3. by apply quietly_silent.
  - apply mret_inv in H as [_ <-]. apply quietly_refl.
Qed.

(** Every call of [sendMessage] that returns ends in one of the three
    ways of [attempt]. *)
Lemma sendMessage_attempt w q σ retry err σ' :
  sendMessage n w q σ = Done (retry, err) σ' -> attempt q σ σ' retry err.
Proof.
  unfold sendMessage. intros H.
  apply bind_inv in H as (? & σ0 & Hm & H). apply modify_inv in Hm.
  apply bind_inv in H as (r & σ1 & Hg & H).
  apply getToken_quiet in Hg as [Hh (evs & Ht & Hq)]. subst σ0.
  simpl in Hh, Ht.
  assert (forall e, (mret (false, Some e) : M _) σ1 = Done (retry, err) σ' ->
                    attempt q σ σ' retry err) as Hfail.
  { intros e [[= <- <-] <-]%mret_inv. by eapply attempt_failed. }
  destruct r as [accessToken | e]; [| by eapply Hfail].
  apply bind_inv in H as (o & σ2 & Ho & H). apply load_inv in Ho as [-> _].
  apply bind_inv in H as (c & σ2 & Hc & H).
  apply config_of_inv in Hc as [-> _].
  destruct (UrlWithPath _ _) as [u | e]; [| by eapply Hfail].
  destruct (UrlWithParameters _ _) as [u' | e]; [| by eapply Hfail].
  destruct (NewRequest _ _) as [e |]; [by eapply Hfail |].
  apply bind_inv in H as (reply & σ2 & Hd & H).
  apply DoHttpRequest_inv in Hd as [Hh2 Ht2].
  rewrite Hh in Hh2. rewrite Ht in Ht2.
  destruct reply as [e | e | weResp].
  - apply mret_inv in H as [[= <- <-] <-].
    by apply (attempt_answered q σ σ2 "POST" u' (HttpError e) evs).
  - apply mret_inv in H as [[= <- <-] <-].
    by apply (attempt_answered q σ σ2 "POST" u' (BadBody e) evs).
  - destruct (Z.eqb_spec (Code weResp) 0) as [Hzero | Hnonzero].
    + apply mret_inv in H as [[= <- <-] <-].
      apply (attempt_answered q σ σ2 "POST" u' (Json weResp) evs); try done.
      simpl. rewrite Hzero. done.
    + destruct (Z.eqb_spec (Code weResp) AccessTokenInvalid) as [Hexp | Hother].
      * apply bind_inv in H as (? & σ3 & Hs & H). apply modify_inv in Hs.
        apply mret_inv in H as [[= <- <-] <-]. subst σ3.
        eapply attempt_expired; try done. simpl. by rewrite Ht2.
      * apply mret_inv in H as [[= <- <-] <-].
        apply (attempt_answered q σ σ2 "POST" u' (Json weResp) evs); try done.
        simpl. by apply Z.eqb_neq.
Qed.

End Dispatch.

(** ** Reading the trace of an attempt *)

Lemma count_attempts_quiet evs tr :
  Forall quiet evs -> count_attempts (evs ++ tr) = count_attempts tr.
Proof.
  induction 1 as [| e evs He _ IH]; [done |].
  destruct e as [| ? ? [] ? | |]; simpl in *; done.
Qed.

Lemma posted_quiet evs tr :
  Forall quiet evs -> posted (evs ++ tr) = posted tr.
Proof.
  induction 1 as [| e evs He _ IH]; [done |].
  destruct e as [| ? ? [] ? | |]; simpl in *; done.
Qed.

Lemma post_reply_quiet evs q tr :
  Forall quiet evs -> post_reply (evs ++ Attempt q :: tr) = None.
Proof.
  induction 1 as [| e evs He _ IH]; [done |].
  destruct e as [| ? ? [] ? | |]; simpl in *; done.
Qed.

Section Attempts.

Context {Data Tmpl : Type} `{!Collaborators Data Tmpl}.
Variable n : Notifier Tmpl.

Lemma attempt_heap q σ σ' retry err :
  attempt q σ σ' retry err -> heap σ' = heap σ.
Proof. by destruct 1. Qed.

Lemma attempt_counted q σ σ' retry err :
  attempt q σ σ' retry err -> attempts σ' = S (attempts σ).
Proof.
  unfold attempts. destruct 1 as [? ? _ -> Hq | ? ? ? ? _ -> Hq | ? ? ? ? ? _ -> Hq];
    simpl; by rewrite count_attempts_quiet.
Qed.

Lemma attempt_signal q σ σ' retry err :
  attempt q σ σ' retry err -> retry = expiry_signalled σ'.
Proof.
  unfold expiry_signalled.
  destruct 1 as [? ? _ -> Hq | ? ? ? ? _ -> Hq Hx | ? ? ? ? ? _ -> Hq Hx]; simpl.
  - by rewrite post_reply_quiet.
  - done.
  - by rewrite Hx.
Qed.

(** An attempt posts its own body, at most once. *)
Lemma attempt_posted q σ σ' retry err :
  attempt q σ σ' retry err ->
  posted (trace σ') = posted (trace σ)
  \/ posted (trace σ') = q :: posted (trace σ).
Proof.
  destruct 1 as [? ? _ -> Hq | ? ? ? ? _ -> Hq | ? ? ? ? ? _ -> Hq]; simpl;
    rewrite posted_quiet by done; auto.
Qed.

(** A successful attempt is never a retryable one. *)
Lemma attempt_success q σ σ' retry :
  attempt q σ σ' retry None -> retry = false.
Proof. by inversion 1. Qed.

(** *** The dispatch path returns *)

Lemma returns_bind {A B} (m : M A) (k : A -> M B) σ a σ1 :
  m σ = Done a σ1 -> returns (k a) σ1 -> returns (m ≫= k) σ.
Proof.
  intros Hm (b & σ' & Hk). exists b, σ'. by rewrite (bind_Done _ _ _ _ _ Hm).
Qed.

Lemma returns_mret {A} (a : A) σ : returns (mret a : M A) σ.
Proof. by exists a, σ. Qed.

Lemma load_Done l σ o : heap σ !! l = Some o -> load l σ = Done o σ.
Proof.
  intros H. unfold load, mbind, M_bind, bind, get. simpl. by rewrite H.
Qed.

Lemma config_of_Done o c σ : Config o = Some c -> config_of o σ = Done c σ.
Proof. intros H. unfold config_of. by rewrite H. Qed.

Lemma yield_returns σ : exists σ', yield σ = Done tt σ'.
Proof.
  unfold yield, mbind, M_bind, bind, get, modify, mret, M_ret, ret.
  destruct (schedule σ) as [| [] later]; simpl; by eexists.
Qed.

Lemma DoHttpRequest_returns method url body σ :
  exists reply σ', DoHttpRequest method url body σ = Done reply σ'.
Proof. unfold DoHttpRequest. by eexists _, _. Qed.

Lemma getToken_returns w σ o c :
  heap σ !! w = Some o -> Config o = Some c -> returns (getToken n w) σ.
Proof.
  intros Ho Hc. unfold getToken.
  eapply returns_bind; [by apply load_Done |].
  eapply returns_bind; [by apply config_of_Done |].
  destruct (yield_returns σ) as [σ1 Hy].
  eapply returns_bind; [done |].
  unfold GetToken. eapply returns_bind; [done |].
  destruct (cache σ1 !! token_key c); [apply returns_mret |].
  assert (forall (f : result (string * Z)) σ2,
            returns (match f with
                     | Ok (token, _) =>
                         modify (fun σ => set_cache
                                   (<[token_key c := token]> (cache σ)) σ);;
                         mret (Ok token)
                     | Err e => mret (Err e)
                     end : M (result string)) σ2) as Hrest.
  { intros [[token ?] | e] σ2; [| apply returns_mret].
    eapply returns_bind; [done | apply returns_mret]. }
  repeat case_match;
    try (eapply returns_bind; [done | apply Hrest]).
  destruct (DoHttpRequest_returns "GET" a1 None σ1) as (reply & σ2 & Hd).
  destruct reply;
    (eapply returns_bind;
     [by rewrite (bind_Done _ _ _ _ _ Hd) | apply Hrest]).
Qed.

Lemma sendMessage_returns w q σ o c :
  heap σ !! w = Some o -> Config o = Some c ->
  returns (sendMessage n w q) σ.
Proof.
  intros Ho Hc. unfold sendMessage.
  eapply returns_bind; [done |].
  destruct (getToken_returns w (log (Attempt q) σ) o c Ho Hc)
    as (r & σ1 & Hg).
  eapply returns_bind; [done |].
  destruct r as [accessToken | e]; [| apply returns_mret].
  apply getToken_quiet in Hg as [Hh _]. simpl in Hh.
  eapply returns_bind; [apply load_Done; by rewrite Hh |].
  eapply returns_bind; [by apply config_of_Done |].
  repeat case_match; try apply returns_mret.
  destruct (DoHttpRequest_returns "POST" a0 (Some q) σ1) as (reply & σ2 & Hd).
  eapply returns_bind; [done |].
  repeat case_match; apply returns_mret.
Qed.

End Attempts.

(** ** Merging receivers *)

Lemma TrimPrefix_pipe s : Strings.TrimPrefix (String pipe s) "|" = s.
Proof. reflexivity. Qed.

Lemma TrimPrefix_other c s :
  c <> pipe -> Strings.TrimPrefix (String c s) "|" = String c s.
Proof.
  intros Hc. unfold Strings.TrimPrefix. simpl.
  destruct (Ascii.eqb_spec c "|"); [done |]. done.
Qed.

(** A valid name starts with a byte that is not the separator. *)
Lemma valid_name_head x :
  valid_name x -> exists c rest, x = String c rest /\ c <> pipe.
Proof.
  intros [Hne Hcount]. destruct x as [| c rest]; [done |].
  exists c, rest. split; [done |]. intros ->. simpl in Hcount.
  rewrite ?Ascii.eqb_refl in Hcount. done.
Qed.

Lemma Join_cons x l :
  l <> [] -> Strings.Join (x :: l) pipe = x +:+ String pipe (Strings.Join l pipe).
Proof. by destruct l. Qed.

Lemma Join_head (l : list string) :
  l <> [] -> Forall valid_name l ->
  exists c rest, Strings.Join l pipe = String c rest /\ c <> pipe.
Proof.
  destruct l as [| x l]; [done |]. intros _ Hl.
  inversion Hl as [| ? ? Hx _]; subst.
  destruct (valid_name_head x Hx) as (c & rest & -> & Hc).
  destruct l as [| y l]; simpl.
  - by exists c, rest.
  - rewrite append_cons. by eexists c, _.
Qed.

Lemma Join_app (l1 l2 : list string) :
  l1 <> [] -> l2 <> [] ->
  Strings.Join (l1 ++ l2) pipe
  = Strings.Join l1 pipe +:+ String pipe (Strings.Join l2 pipe).
Proof.
  intros H1 H2. induction l1 as [| x l1 IH]; [done |].
  destruct l1 as [| y l1].
  - simpl app. by rewrite Join_cons.
  - change ((x :: y :: l1) ++ l2)%list with (x :: ((y :: l1) ++ l2))%list.
    rewrite Join_cons by done. rewrite IH by done.
    rewrite (Join_cons x (y :: l1)) by done.
    by rewrite append_assoc, append_cons.
Qed.

(** Appending the destinations of a receiver to those merged so far
    joins the two lists, without a leading separator. *)
Lemma append_destination_Join (l1 l2 : list string) :
  Forall valid_name l1 -> Forall valid_name l2 ->
  append_destination (Strings.Join l1 pipe) (Strings.Join l2 pipe)
  = Strings.Join (l1 ++ l2) pipe.
Proof.
  intros H1 H2. unfold append_destination.
  destruct l2 as [| y l2].
  - rewrite app_nil_r. simpl String.length. simpl Nat.ltb.
    change (0 <? 0)%nat with false. cbv iota.
    destruct l1 as [| x l1]; [done |].
    destruct (Join_head (x :: l1)) as (c & rest & -> & Hc); [done | done |].
    by apply TrimPrefix_other.
  - destruct (Join_head (y :: l2)) as (c & rest & Hj & Hc); [done | done |].
    rewrite Hj at 1. simpl String.length.
    change (0 <? S _)%nat with true. cbv iota.
    destruct l1 as [| x l1].
    + by rewrite append_empty_l.
    + rewrite Join_app by done.
      destruct (Join_head (x :: l1)) as (d & rest' & -> & Hd); [done | done |].
      rewrite append_cons. by apply TrimPrefix_other.
Qed.

Section Merge.

Context {Data Tmpl : Type} `{!Collaborators Data Tmpl}.

Lemma add_receiver_receiver_of m c ns users parties tags key :
  Md5key (normalized c ns) = Ok key ->
  add_receiver m (WechatReceiver (Some (receiver_of c ns users parties tags)))
  = <[key :=
        let w := default (normalized c ns) (m !! key) in
        with_ToParty
          (append_destination (ToParty w) (Strings.Join parties pipe))
          (with_ToTag
             (append_destination (ToTag w) (Strings.Join tags pipe))
             (with_ToUser
                (append_destination (ToUser w) (Strings.Join users pipe)) w))]>
      m.
Proof.
  intros Hkey. unfold add_receiver. simpl.
  change (Clone (with_Config (default_APIURL c)
                   (receiver_of c ns users parties tags)))
    with (normalized c ns).
  by rewrite Hkey.
Qed.

End Merge.

(** ** One iteration of the batching loop, read backwards *)

Section Iteration.

Context {Data Tmpl : Type} `{!Collaborators Data Tmpl}.
Variable n : Notifier Tmpl.

Lemma loop_body_inv nw toUser toParty toTag messages us ps ts
    (group : Group) σ us' ps' ts' (group' : Group) σ' :
  loop_body n nw toUser toParty toTag messages us ps ts group σ
  = Done (us', ps', ts', group') σ' ->
  exists o u p t,
    heap σ !! nw = Some o
    /\ batch toUser us ToUserBatchSize = Some (u, us')
    /\ batch toParty ps ToPartyBatchSize = Some (p, ps')
    /\ batch toTag ts ToTagBatchSize = Some (t, ts')
    /\ σ' = set_heap
              (<[nw := with_ToTag t (with_ToParty p (with_ToUser u o))]>
                 (heap σ)) σ
    /\ group' = (group ++ (send n nw <$> messages))%list.
Proof.
  unfold loop_body. intros H.
  apply bind_inv in H as ([u us1] & σ1 & Hu & H).
  apply call_inv in Hu as [Hu ->].
  apply bind_inv in H as (? & σ1 & Hs1 & H).
  apply store_inv in Hs1 as (o & Ho & ->).
  apply bind_inv in H as ([p ps1] & σ2 & Hp & H).
  apply call_inv in Hp as [Hp ->].
  apply bind_inv in H as (? & σ2 & Hs2 & H).
  apply store_inv in Hs2 as (o2 & Ho2 & ->).
  apply bind_inv in H as ([t ts1] & σ3 & Ht & H).
  apply call_inv in Ht as [Ht ->].
  apply bind_inv in H as (? & σ3 & Hs3 & H).
  apply store_inv in Hs3 as (o3 & Ho3 & ->).
  apply mret_inv in H as [[= <- <- <- <-] <-].
  simpl in Ho2, Ho3. rewrite lookup_insert_eq in Ho2, Ho3.
  injection Ho2 as <-. injection Ho3 as <-.
  exists o, u, p, t. repeat split; try done.
  - unfold set_heap. simpl. by rewrite !insert_insert_eq.
  - apply fold_Add_send.
Qed.

End Iteration.

(** ** Requests respect the caps *)

Lemma batch_cursor_range src index size out index' :
  GoInt.in_range index ->
  batch src index size = Some (out, index') -> GoInt.in_range index'.
Proof.
  intros Hi. unfold batch. destruct (len src <? index).
  - by intros [= _ <-].
  - destruct (if len src <? GoInt.add index size then _ else _); [| done].
    intros [= _ <-]. unfold GoInt.add, GoInt.in_range, GoInt.wrap,
      GoInt.min_int, GoInt.max_int.
    pose proof (Z.mod_pos_bound (index + size + 2 ^ 63) (2 ^ 64)
                  ltac:(lia)). lia.
Qed.

Lemma batch_capped s index size out index' :
  GoInt.in_range index -> GoInt.in_range size -> 0 <= size ->
  batch (Strings.Split s pipe) index size = Some (out, index') ->
  entries out <= size.
Proof.
  intros Hi Hs Hpos Hb. rewrite (batch_result _ _ _ _ _ Hi Hs Hb).
  pose proof (batch_at_entries s index size). lia.
Qed.

Lemma capped_Clone w : capped_object (Clone w).
Proof. by repeat split. Qed.

Lemma capped_heap_insert σ l o :
  capped_heap σ -> capped_object o ->
  capped_heap (set_heap (<[l := o]> (heap σ)) σ).
Proof.
  intros Hσ Ho l' o'. simpl. rewrite lookup_insert.
  case_decide; [by intros [= <-] | apply Hσ].
Qed.

Section Caps.

Context {Data Tmpl : Type} `{!Collaborators Data Tmpl}.
Variable n : Notifier Tmpl.

Lemma send_capped w msg σ err σ' :
  capped_heap σ ->
  send n w msg σ = Done err σ' ->
  heap σ' = heap σ
  /\ (Forall capped_message (posted (trace σ)) ->
      Forall capped_message (posted (trace σ'))).
Proof.
  intros Hσ. unfold send. intros H.
  apply bind_inv in H as (o & σ0 & Ho & H). apply load_inv in Ho as [-> Ho].
  apply bind_inv in H as (c & σ0 & Hc & H).
  apply config_of_inv in Hc as [-> Hc].
  apply bind_inv in H as ([retry first] & σ1 & H1 & H).
  apply sendMessage_attempt in H1.
  assert (capped_message (body_of o c msg)) as Hq by apply (Hσ w o Ho).
  assert (forall σa σb r e,
            attempt (body_of o c msg) σa σb r e ->
            Forall capped_message (posted (trace σa)) ->
            Forall capped_message (posted (trace σb))) as Hstep.
  { intros σa σb r e Ha Hp.
    destruct (attempt_posted _ _ _ _ _ Ha) as [-> | ->]; [done |].
    by constructor. }
  destruct retry.
  - apply bind_inv in H as ([retry2 second] & σ2 & H2 & H).
    apply sendMessage_attempt in H2. apply mret_inv in H as [_ <-].
    split.
    + rewrite (attempt_heap _ _ _ _ _ H2). apply (attempt_heap _ _ _ _ _ H1).
    + eauto.
  - apply mret_inv in H as [_ <-]. split; [by eapply attempt_heap | eauto].
Qed.

Lemma Wait_capped (g : Group) :
  sends n g ->
  forall σ errs σ',
    capped_heap σ ->
    Wait g σ = Done errs σ' ->
    Forall capped_message (posted (trace σ)) ->
    Forall capped_message (posted (trace σ')).
Proof.
  induction 1 as [| task g (w & msg & ->) _ IH]; intros σ errs σ' Hσ H Hp.
  - by apply mret_inv in H as [_ <-].
  - simpl in H. apply bind_inv in H as (r & σ1 & Hs & H).
    apply bind_inv in H as (errs' & σ2 & Hw & H).
    apply mret_inv in H as [_ <-].
    destruct (send_capped w msg σ r σ1 Hσ Hs) as [Hh Hp1].
    eapply IH; [| done | by apply Hp1].
    intros l o. rewrite Hh. apply Hσ.
Qed.

Lemma batch_loop_capped fuel nw (u p t : string) messages :
  forall us ps ts (group group' : Group) σ σ',
    GoInt.in_range us -> GoInt.in_range ps -> GoInt.in_range ts ->
    capped_heap σ -> sends n group ->
    batch_loop fuel n nw (Strings.Split u pipe) (Strings.Split p pipe)
      (Strings.Split t pipe) messages us ps ts group σ = Done group' σ' ->
    capped_heap σ' /\ sends n group' /\ trace σ' = trace σ.
Proof.
  induction fuel as [| fuel IH];
    intros us ps ts group group' σ σ' Hus Hps Hts Hσ Hg H; [done |].
  simpl in H. destruct (exhausted _ _ _ us ps ts).
  { by apply mret_inv in H as [<- <-]. }
  apply bind_inv in H as ([[[us1 ps1] ts1] group1] & σ1 & Hb & H).
  apply loop_body_inv in Hb as (o & bu & bp & bt & Ho & Hu & Hp & Ht & -> & ->).
  assert (GoInt.in_range 1000 /\ GoInt.in_range 100) as [R1 R2]
    by (unfold GoInt.in_range, GoInt.min_int, GoInt.max_int; lia).
  pose proof (batch_cursor_range _ _ _ _ _ Hus Hu) as Hus1.
  pose proof (batch_cursor_range _ _ _ _ _ Hps Hp) as Hps1.
  pose proof (batch_cursor_range _ _ _ _ _ Hts Ht) as Hts1.
  assert (capped_heap
            (set_heap
               (<[nw := with_ToTag bt (with_ToParty bp (with_ToUser bu o))]>
                  (heap σ)) σ)) as Hσ1.
  { apply capped_heap_insert; [done |]. repeat split; simpl.
    - by eapply (batch_capped u us).
    - by eapply (batch_capped p ps).
    - by eapply (batch_capped t ts). }
  assert (sends n (group ++ (send n nw <$> messages))%list) as Hg1.
  { apply Forall_app. split; [done |]. apply Forall_fmap, Forall_true.
    intros msg. by exists nw, msg. }
  apply (IH _ _ _ _ _ _ _ Hus1 Hps1 Hts1 Hσ1 Hg1) in H as (Hσ' & Hg' & Htr).
  split; [done | split; [done | exact Htr]].
Qed.

Lemma for_each_capped messages ws :
  forall (group group' : Group) σ σ',
    capped_heap σ -> sends n group ->
    for_each n messages ws group σ = Done group' σ' ->
    capped_heap σ' /\ sends n group' /\ trace σ' = trace σ.
Proof.
  induction ws as [| w ws IH]; intros group group' σ σ' Hσ Hg H.
  - by apply mret_inv in H as [<- <-].
  - simpl in H. apply bind_inv in H as (group1 & σ1 & Hd & H).
    unfold dispatch in Hd.
    apply bind_inv in Hd as (nw & σ0 & Ha & Hd).
    unfold alloc in Ha. injection Ha as <- <-.
    apply batch_loop_capped in Hd as (Hσ1 & Hg1 & Ht1); try done.
    + apply IH in H as (Hσ' & Hg' & Ht'); try done.
      split; [done | split; [done |]]. by rewrite Ht', Ht1.
    + by apply capped_heap_insert, capped_Clone.
Qed.

(** Every request [Notify] sends respects the caps of the channel. *)
Lemma Notify_capped data σ errs σ' :
  capped_heap σ ->
  Notify n data σ = Done errs σ' ->
  Forall capped_message (posted (trace σ)) ->
  Forall capped_message (posted (trace σ')).
Proof.
  intros Hσ. unfold Notify. destruct (TemplateSplit _ _ _ _) as [messages | e].
  - intros H Hp. apply bind_inv in H as (group & σ1 & Hf & H).
    apply for_each_capped in Hf as (Hσ1 & Hg & Ht); [| done | by constructor].
    eapply Wait_capped; [done | done | done |]. by rewrite Ht.
  - by intros [_ <-]%mret_inv.
Qed.

End Caps.

(** * The claims *)

Section Claims.

Context {Data Tmpl : Type} `{!Collaborators Data Tmpl}.

(** ** Receiver merge *)

Lemma append_destination_first (l : list string) :
  Forall valid_name l ->
  append_destination "" (Strings.Join l pipe) = Strings.Join l pipe.
Proof. intros Hl. by apply (append_destination_Join [] l). Qed.

Lemma apply_options_wechat opts (n : Notifier Tmpl) :
  wechat (apply_options opts n) = wechat n.
Proof. destruct opts as [[? [?|]]|]; done. Qed.

(** C3. Two receivers with the same normalized config (default endpoint
    filled in, destinations cleared) and any destination lists of valid
    names are collapsed by [NewWechatNotifier] into exactly one instance,
    stored under the hash of the normalized config; each of its three
    destination strings is the "|"-joined concatenation of the two
    receivers' lists, in order, without a leading separator, so that
    splitting it at "|" gives back that concatenation: nothing dropped,
    nothing duplicated. *)
Theorem merge_identical_transport cfg tmpl c1 c2 ns1 ns2 key
    (u1 p1 t1 u2 p2 t2 : list string) :
  NewTemplate (template_files (ReceiverOpts cfg)) = Ok tmpl ->
  normalized c1 ns1 = normalized c2 ns2 ->
  Md5key (normalized c1 ns1) = Ok key ->
  Forall valid_name (u1 ++ u2)%list -> Forall valid_name (p1 ++ p2)%list ->
  Forall valid_name (t1 ++ t2)%list ->
  exists n,
    NewWechatNotifier
      [WechatReceiver (Some (receiver_of c1 ns1 u1 p1 t1));
       WechatReceiver (Some (receiver_of c2 ns2 u2 p2 t2))] cfg = Some n
    /\ wechat n
       = {[ key := {| ToUser := Strings.Join (u1 ++ u2)%list pipe;
                      ToParty := Strings.Join (p1 ++ p2)%list pipe;
                      ToTag := Strings.Join (t1 ++ t2)%list pipe;
                      Config := Some (default_APIURL c1);
                      Namespace := ns1 |} ]}
    /\ ((u1 ++ u2)%list <> [] ->
        Strings.Split (Strings.Join (u1 ++ u2)%list pipe) pipe = (u1 ++ u2)%list)
    /\ ((p1 ++ p2)%list <> [] ->
        Strings.Split (Strings.Join (p1 ++ p2)%list pipe) pipe = (p1 ++ p2)%list)
    /\ ((t1 ++ t2)%list <> [] ->
        Strings.Split (Strings.Join (t1 ++ t2)%list pipe) pipe = (t1 ++ t2)%list).
Proof.
  intros Htmpl Hsame Hkey Hu Hp Ht.
  apply Forall_app in Hu as Hu'. destruct Hu' as [Hu1 Hu2].
  apply Forall_app in Hp as Hp'. destruct Hp' as [Hp1 Hp2].
  apply Forall_app in Ht as Ht'. destruct Ht' as [Ht1 Ht2].
  unfold NewWechatNotifier. rewrite Htmpl. eexists. split; [done |].
  split; [| by auto using Split_Join].
  cbn [wechat set_wechat]. rewrite apply_options_wechat. cbn [wechat fold_left].
  assert (Md5key (normalized c2 ns2) = Ok key) as Hkey2
    by (by rewrite <- Hsame).
  rewrite (add_receiver_receiver_of _ c1 ns1 u1 p1 t1 key Hkey).
  rewrite (add_receiver_receiver_of _ c2 ns2 u2 p2 t2 key Hkey2).
  rewrite <- Hsame.
  rewrite lookup_empty, lookup_insert_eq, insert_insert_eq, insert_empty.
  f_equal.
  unfold with_ToParty, with_ToTag, with_ToUser, normalized, Clone,
    with_Config, receiver_of. simpl.
  rewrite !append_destination_first by done.
  by rewrite !append_destination_Join by done.
Qed.

(** ** Retry *)

Variable n : Notifier Tmpl.

(** C4. A task runs [sendMessage] once or twice. It runs it a second
    time exactly when the first attempt was answered with the
    token-expired code (never after a first attempt that succeeded or
    failed otherwise), and then the error of the second attempt, whatever
    it is, is the error of the task. *)
Theorem send_retries_once w msg σ o c :
  heap σ !! w = Some o -> Config o = Some c ->
  exists retry first σ1 err σ',
    sendMessage n w (body_of o c msg) σ = Done (retry, first) σ1
    /\ send n w msg σ = Done err σ'
    /\ retry = expiry_signalled σ1
    /\ (first = None -> retry = false)
    /\ if retry
       then attempts σ' = S (S (attempts σ))
            /\ exists retry2,
                 sendMessage n w (body_of o c msg) σ1 = Done (retry2, err) σ'
       else attempts σ' = S (attempts σ) /\ err = first /\ σ' = σ1.
Proof.
  intros Ho Hc.
  destruct (sendMessage_returns n w (body_of o c msg) σ o c Ho Hc)
    as ([retry first] & σ1 & H1).
  pose proof (sendMessage_attempt n _ _ _ _ _ _ H1) as A1.
  assert (send n w msg σ
          = (if retry
             then '(_, err) ← sendMessage n w (body_of o c msg); mret err
             else mret first) σ1) as Hsend.
  { unfold send. rewrite (bind_Done _ _ _ _ _ (load_Done w σ o Ho)).
    rewrite (bind_Done _ _ _ _ _ (config_of_Done o c σ Hc)).
    change (sendMessage n w _) with (sendMessage n w (body_of o c msg)).
    by rewrite (bind_Done _ _ _ _ _ H1). }
  destruct retry.
  - assert (heap σ1 !! w = Some o) as Ho1
      by (by rewrite (attempt_heap _ _ _ _ _ A1)).
    destruct (sendMessage_returns n w (body_of o c msg) σ1 o c Ho1 Hc)
      as ([retry2 second] & σ2 & H2).
    pose proof (sendMessage_attempt n _ _ _ _ _ _ H2) as A2.
    exists true, first, σ1, second, σ2. split; [done |]. split.
    { rewrite Hsend. by rewrite (bind_Done _ _ _ _ _ H2). }
    split; [by eapply attempt_signal |].
    split; [intros ->; by apply attempt_success in A1 |].
    split; [| by exists retry2].
    rewrite (attempt_counted _ _ _ _ _ A2). f_equal.
    by rewrite (attempt_counted _ _ _ _ _ A1).
  - exists false, first, σ1, first, σ1. split; [done |]. split; [done |].
    split; [by eapply attempt_signal |]. split; [done |].
    split; [by eapply attempt_counted | done].
Qed.

(** The error of a task is [nil] whenever the send request of its last
    attempt was answered with a decodable body whose code is not the
    token-expired one: code 0, but also every other error code. *)
Lemma send_other_code w msg σ err σ' resp :
  send n w msg σ = Done err σ' ->
  post_reply (trace σ') = Some (Json resp) ->
  Code resp <> AccessTokenInvalid ->
  err = None.
Proof.
  unfold send. intros H Hreply Hcode.
  apply bind_inv in H as (o & σ0 & Ho & H). apply load_inv in Ho as [-> Ho].
  apply bind_inv in H as (c & σ0 & Hc & H).
  apply config_of_inv in Hc as [-> Hc].
  apply bind_inv in H as ([retry first] & σ1 & H1 & H).
  assert (forall q σa r e, attempt q σa σ' r e -> e = None) as Hlast.
  { intros q σa r e A. destruct A as [? ? _ Ht Hq | ? ? ? ? _ Ht Hq Hx
                                       | ? ? ? ? ? _ Ht Hq Hx];
      rewrite Ht in Hreply; simpl in Hreply.
    - by rewrite post_reply_quiet in Hreply.
    - by injection Hreply as ->.
    - injection Hreply as ->. done. }
  destruct retry.
  - apply bind_inv in H as ([retry2 second] & σ2 & H2 & H).
    apply mret_inv in H as [<- <-].
    by apply sendMessage_attempt, Hlast in H2.
  - apply mret_inv in H as [<- <-].
    by apply sendMessage_attempt, Hlast in H1.
Qed.

(** ** Message size and template errors *)

Lemma bind_ext {A B} (m : M A) (k1 k2 : A -> M B) σ :
  (forall a σ', k1 a σ' = k2 a σ') -> (m ≫= k1) σ = (m ≫= k2) σ.
Proof.
  intros H. unfold mbind, M_bind, bind. by destruct (m σ).
Qed.

Lemma batch_loop_messageMaxSize size fuel nw toUser toParty toTag messages :
  forall us ps ts (group : Group) σ,
    batch_loop fuel (set_messageMaxSize size n) nw toUser toParty toTag
      messages us ps ts group σ
    = batch_loop fuel n nw toUser toParty toTag messages us ps ts group σ.
Proof.
  induction fuel as [| fuel IH]; intros us ps ts group σ; [done |].
  simpl. destruct (exhausted _ _ _ _ _ _); [done |].
  change (loop_body (set_messageMaxSize size n)) with (loop_body n).
  apply bind_ext. intros [[[us1 ps1] ts1] g1] σ1. apply IH.
Qed.

Lemma for_each_messageMaxSize size messages ws :
  forall (group : Group) σ,
    for_each (set_messageMaxSize size n) messages ws group σ
    = for_each n messages ws group σ.
Proof.
  induction ws as [| w ws IH]; intros group σ; [done |].
  simpl. transitivity
    ((dispatch n messages group w
      ≫= λ group, for_each (set_messageMaxSize size n) messages ws group) σ).
  - unfold dispatch.
    assert (forall (k : Group -> M Group) (m1 m2 : M Group) σ0,
              m1 σ0 = m2 σ0 -> (m1 ≫= k) σ0 = (m2 ≫= k) σ0) as Hcong.
    { intros k m1 m2 σ0 Hm. unfold mbind, M_bind, bind. by rewrite Hm. }
    apply Hcong. apply bind_ext. intros nw σ0.
    apply batch_loop_messageMaxSize.
  - apply bind_ext. intros g σ'. apply IH.
Qed.

(** The size configured for the notifier has no influence on [Notify]:
    the splitter is always called with the constant [MessageMaxSize]. *)
Lemma Notify_ignores_messageMaxSize size data σ :
  Notify (set_messageMaxSize size n) data σ = Notify n data σ.
Proof.
  unfold Notify. cbn [template templateName wechat set_messageMaxSize].
  destruct (TemplateSplit _ _ _ _); [| done].
  unfold mbind, M_bind, bind. by rewrite for_each_messageMaxSize.
Qed.

(** When the templates cannot be rendered, [Notify] sends nothing and
    returns the empty list. *)
Lemma Notify_split_error data σ e :
  TemplateSplit (template n) data MessageMaxSize (templateName n) = Err e ->
  Notify n data σ = Done [] σ.
Proof. intros H. unfold Notify. by rewrite H. Qed.

End Claims.

(** ** [Notify] returns *)

Section Returns.

Context {Data Tmpl : Type} `{!Collaborators Data Tmpl}.
Variable n : Notifier Tmpl.

Lemma send_returns w msg σ o c :
  heap σ !! w = Some o -> Config o = Some c ->
  exists err σ', send n w msg σ = Done err σ' /\ heap σ' = heap σ.
Proof.
  intros Ho Hc. unfold send.
  rewrite (bind_Done _ _ _ _ _ (load_Done w σ o Ho)).
  rewrite (bind_Done _ _ _ _ _ (config_of_Done o c σ Hc)).
  change (sendMessage n w _) with (sendMessage n w (body_of o c msg)).
  destruct (sendMessage_returns n w (body_of o c msg) σ o c Ho Hc)
    as ([retry first] & σ1 & H1).
  rewrite (bind_Done _ _ _ _ _ H1).
  apply sendMessage_attempt, attempt_heap in H1 as Hh1.
  destruct retry; [| by exists first, σ1].
  assert (heap σ1 !! w = Some o) as Ho1 by (by rewrite Hh1).
  destruct (sendMessage_returns n w (body_of o c msg) σ1 o c Ho1 Hc)
    as ([retry2 second] & σ2 & H2).
  rewrite (bind_Done _ _ _ _ _ H2).
  apply sendMessage_attempt, attempt_heap in H2 as Hh2.
  exists second, σ2. split; [done | congruence].
Qed.

Lemma Wait_returns (g : Group) :
  forall σ, configured_heap σ -> ready n g σ -> returns (Wait g) σ.
Proof.
  induction g as [| task g IH]; intros σ Hσ Hg; [apply returns_mret |].
  inversion Hg as [| ? ? (w & msg & -> & [o Ho]) Hg']; subst.
  destruct (Hσ w o Ho) as [c Hc].
  destruct (send_returns w msg σ o c Ho Hc) as (err & σ1 & Hs & Hh).
  simpl. eapply returns_bind; [exact Hs |].
  destruct (IH σ1) as (errs & σ2 & Hw).
  - intros l o'. rewrite Hh. apply Hσ.
  - eapply Forall_impl; [exact Hg' |]. intros task (w' & msg' & -> & Hw').
    exists w', msg'. by rewrite Hh.
  - eapply returns_bind; [exact Hw | apply returns_mret].
Qed.

Lemma ready_insert (g : Group) σ l o :
  ready n g σ -> ready n g (set_heap (<[l := o]> (heap σ)) σ).
Proof.
  intros Hg. eapply Forall_impl; [exact Hg |].
  intros task (w & msg & -> & Hw). exists w, msg. split; [done |]. simpl.
  rewrite lookup_insert. by case_decide.
Qed.

Lemma configured_insert σ l o :
  configured_heap σ -> is_Some (Config o) ->
  configured_heap (set_heap (<[l := o]> (heap σ)) σ).
Proof.
  intros Hσ Ho l' o'. simpl. rewrite lookup_insert.
  case_decide; [by intros [= <-] | apply Hσ].
Qed.

Lemma batch_loop_ready fuel nw toUser toParty toTag messages :
  forall us ps ts (group group' : Group) σ σ',
    configured_heap σ -> is_Some (heap σ !! nw) -> ready n group σ ->
    batch_loop fuel n nw toUser toParty toTag messages us ps ts group σ
    = Done group' σ' ->
    configured_heap σ' /\ ready n group' σ'.
Proof.
  induction fuel as [| fuel IH];
    intros us ps ts group group' σ σ' Hσ Hnw Hg H; [done |].
  simpl in H. destruct (exhausted _ _ _ us ps ts).
  { by apply mret_inv in H as [<- <-]. }
  apply bind_inv in H as ([[[us1 ps1] ts1] group1] & σ1 & Hb & H).
  apply loop_body_inv in Hb as (o & bu & bp & bt & Ho & _ & _ & _ & -> & ->).
  apply IH in H; [done | | |].
  - apply configured_insert; [done |]. simpl. by apply (Hσ nw o).
  - simpl. rewrite lookup_insert_eq. by eexists.
  - apply Forall_app. split; [by apply ready_insert |].
    apply Forall_fmap, Forall_true. intros msg. exists nw, msg.
    split; [done |]. simpl. rewrite lookup_insert_eq. by eexists.
Qed.

Lemma for_each_returns messages ws :
  Forall dispatchable ws ->
  forall (group : Group) σ,
    configured_heap σ -> ready n group σ ->
    exists group' σ',
      for_each n messages ws group σ = Done group' σ'
      /\ configured_heap σ' /\ ready n group' σ'.
Proof.
  induction 1 as [| w ws (Hc & Fu & Fp & Ft) _ IH]; intros group σ Hσ Hg.
  - by exists group, σ.
  - simpl.
    set (σ0 := set_heap (<[fresh (dom (heap σ)) := Clone w]> (heap σ)) σ).
    assert (alloc (Clone w) σ = Done (fresh (dom (heap σ))) σ0) as Ha
      by reflexivity.
    assert (is_Some (heap σ0 !! fresh (dom (heap σ)))) as Hnw
      by (simpl; rewrite lookup_insert_eq; by eexists).
    destruct (batch_loop_Done n (fresh (dom (heap σ)))
                (Strings.Split (ToUser w) pipe)
                (Strings.Split (ToParty w) pipe)
                (Strings.Split (ToTag w) pipe) messages
                (loop_fuel (Strings.Split (ToUser w) pipe)
                   (Strings.Split (ToParty w) pipe)
                   (Strings.Split (ToTag w) pipe))
                Fu Fp Ft 0 0 0 group σ0)
      as (group1 & σ1 & Hloop); [lia | lia | lia | done | |].
    { unfold loop_fuel, remaining, len. lia. }
    apply batch_loop_ready in Hloop as Hinv; [| | done |].
    + destruct Hinv as [Hσ1 Hg1].
      destruct (IH group1 σ1 Hσ1 Hg1) as (group' & σ' & Hrest & Hinv').
      exists group', σ'. split; [| done].
      assert (dispatch n messages group w σ = Done group1 σ1) as Hd.
      { unfold dispatch. by rewrite (bind_Done _ _ _ _ _ Ha). }
      by rewrite (bind_Done _ _ _ _ _ Hd).
    + by apply configured_insert.
    + by apply ready_insert.
Qed.

(** [Notify] finishes, with neither a panic nor an endless loop, whenever
    every instance of the notifier has a transport config and lists that
    fit Go's [int]. *)
Lemma Notify_returns data σ :
  configured_heap σ ->
  (forall key w, wechat n !! key = Some w -> dispatchable w) ->
  returns (Notify n data) σ.
Proof.
  intros Hσ Hws. unfold Notify.
  destruct (TemplateSplit _ _ _ _) as [messages | e]; [| apply returns_mret].
  destruct (for_each_returns messages (snd <$> map_to_list (wechat n)))
    with (group := @nil (M (option error))) (σ := σ)
    as (group & σ1 & Hf & Hσ1 & Hg); [| done | constructor |].
  - apply Forall_fmap, Forall_forall. intros [key w] Hin.
    apply elem_of_map_to_list in Hin. by apply (Hws key).
  - eapply returns_bind; [exact Hf |]. by apply Wait_returns.
Qed.

End Returns.

Section BatchingClaims.

Context {Data Tmpl : Type} `{!Collaborators Data Tmpl}.
Variable n : Notifier Tmpl.

(** C8. For every list, cursor and size (any machine integers), what
    [batch] returns is made of the names at positions
    [index .. index + size - 1] of the list, as far as they exist: at
    most [size] of them; and it does return when cursor and size are not
    negative. Hence [Notify] returns and every request it sends carries
    at most 1000 users, 100 parties and 100 tags. *)
Theorem requests_respect_caps :
  (forall src index size out index',
     GoInt.in_range index -> GoInt.in_range size ->
     batch src index size = Some (out, index') ->
     exists sub,
       sub = take (Z.to_nat size) (drop (Z.to_nat index) src)
       /\ out = terminate_all sub
       /\ len sub <= Z.max 0 size)
  /\ (forall src index size,
        0 <= index -> 0 <= size -> fits src size ->
        is_Some (batch src index size))
  /\ (forall data σ,
        capped_heap σ -> configured_heap σ ->
        (forall key w, wechat n !! key = Some w -> dispatchable w) ->
        Forall capped_message (posted (trace σ)) ->
        exists errs σ',
          Notify n data σ = Done errs σ'
          /\ Forall capped_message (posted (trace σ'))).
Proof.
  split; [| split].
  - intros src index size out index' Hi Hs Hb. eexists. split; [done |].
    split; [by apply (batch_result _ _ _ _ _ Hi Hs Hb) |].
    unfold len. rewrite length_take. lia.
  - intros src index size Hi Hs Hfit. rewrite batch_returns by done.
    by eexists.
  - intros data σ Hcap Hcfg Hws Hp.
    destruct (Notify_returns n data σ Hcfg Hws) as (errs & σ' & HN).
    exists errs, σ'. split; [done |]. by eapply Notify_capped.
Qed.

(** C9, as amended. In one iteration of the batching loop each of the
    three cursors moves by its batch size when it is within its list or
    exactly at its end, and stays where it is once it is strictly past the
    end. Iterations are not skipped when a list is exhausted: as long as
    one cursor is short of its list's length the iteration runs, writes an
    empty batch for every list whose cursor has reached the end, and
    registers one task per message. *)
Theorem cursors_advance_until_past_end nw toUser toParty toTag messages
    us ps ts (group : Group) σ o :
  fits toUser ToUserBatchSize -> fits toParty ToPartyBatchSize ->
  fits toTag ToTagBatchSize ->
  0 <= us -> 0 <= ps -> 0 <= ts ->
  heap σ !! nw = Some o ->
  exists us' ps' ts' σ' o',
    loop_body n nw toUser toParty toTag messages us ps ts group σ
    = Done (us', ps', ts', (group ++ (send n nw <$> messages))%list) σ'
    /\ advances toUser ToUserBatchSize us us'
    /\ advances toParty ToPartyBatchSize ps ps'
    /\ advances toTag ToTagBatchSize ts ts'
    /\ heap σ' !! nw = Some o'
    /\ (len toUser <= us -> ToUser o' = "")
    /\ (len toParty <= ps -> ToParty o' = "")
    /\ (len toTag <= ts -> ToTag o' = "")
    /\ (exhausted toUser toParty toTag us ps ts = false ->
        forall fuel,
          batch_loop (S fuel) n nw toUser toParty toTag messages
            us ps ts group σ
          = batch_loop fuel n nw toUser toParty toTag messages
              us' ps' ts' (group ++ (send n nw <$> messages))%list σ').
Proof.
  intros Fu Fp Ft Hus Hps Hts Ho.
  pose proof (loop_body_Done n nw toUser toParty toTag messages
                us ps ts group σ o Fu Fp Ft Hus Hps Hts Ho) as Hbody.
  assert (forall src size index,
            advances src size index (next_cursor src index size)) as Hadv.
  { intros src size index. unfold advances, next_cursor.
    destruct (Z.ltb_spec (len src) index); lia. }
  eexists _, _, _, _, _. split; [exact Hbody |].
  repeat (split; [apply Hadv |]).
  split; [apply lookup_insert_eq |].
  repeat (split; [intros Hend; simpl; by apply batch_at_exhausted |]).
  intros Hex fuel. simpl. rewrite Hex.
  by rewrite (bind_Done _ _ _ _ _ Hbody).
Qed.

(** C10. The batching loop terminates. A call of [batch] with a cursor
    that is not negative returns, never moves the cursor backwards and
    adds the batch size to it whenever the cursor is within the list;
    therefore the loop, started with the three cursors at 0, reaches its
    exit with any fuel of at least [loop_fuel], the fuel [Notify] runs it
    with, and [Notify] as a whole returns. *)
Theorem batch_loop_terminates nw toUser toParty toTag messages
    (group : Group) σ :
  fits toUser ToUserBatchSize -> fits toParty ToPartyBatchSize ->
  fits toTag ToTagBatchSize ->
  is_Some (heap σ !! nw) ->
  (forall src index size,
     0 <= index -> 0 < size -> fits src size ->
     exists out index',
       batch src index size = Some (out, index')
       /\ index <= index'
       /\ (index <= len src -> index' = index + size))
  /\ (forall fuel,
        (loop_fuel toUser toParty toTag <= fuel)%nat ->
        exists group' σ',
          batch_loop fuel n nw toUser toParty toTag messages 0 0 0 group σ
          = Done group' σ')
  /\ (forall data σ0,
        configured_heap σ0 ->
        (forall key w, wechat n !! key = Some w -> dispatchable w) ->
        returns (Notify n data) σ0).
Proof.
  intros Fu Fp Ft Hnw. split; [| split; [| by apply Notify_returns]].
  - intros src index size Hi Hs Hfit. eexists _, _.
    split; [apply batch_returns; lia || done |].
    unfold next_cursor. destruct (Z.ltb_spec (len src) index); lia.
  - intros fuel Hfuel. apply batch_loop_Done; try done.
    unfold loop_fuel in Hfuel. unfold remaining, len. lia.
Qed.

End BatchingClaims.

(** * Further properties of the code *)

(** ** [batch] *)

Lemma terminate_all_app (l1 l2 : list string) :
  terminate_all (l1 ++ l2) = terminate_all l1 +:+ terminate_all l2.
Proof.
  induction l1 as [| t l1 IH]; [done |].
  change ((t :: l1) ++ l2)%list with (t :: (l1 ++ l2))%list.
  rewrite !terminate_all_cons, IH. by rewrite !append_assoc.
Qed.

(** Splitting a batch of separator-free names gives the names back,
    followed by one empty piece for the trailing separator. *)
Lemma Split_terminate_all (l : list string) :
  Forall (fun t => Strings.count pipe t = O) l ->
  Strings.Split (terminate_all l) pipe = (l ++ [""])%list.
Proof.
  induction 1 as [| t l Ht _ IH]; [done |].
  rewrite terminate_all_cons. change ("|" +:+ terminate_all l)
    with (String pipe (terminate_all l)).
  rewrite Split_append by done. by rewrite IH.
Qed.

(** The batches of a whole split string are the string itself, every
    name followed by the separator. *)
Lemma terminate_all_Split s :
  terminate_all (Strings.Split s pipe) = s +:+ "|".
Proof.
  induction s as [| c s IH]; [done |]. simpl.
  destruct (Ascii.eqb_spec c pipe) as [-> | Hc].
  - rewrite terminate_all_cons, IH. by rewrite append_empty_l.
  - destruct (Strings.Split s pipe) as [| piece rest] eqn:Hs.
    + by apply Split_not_nil in Hs.
    + rewrite terminate_all_cons in IH. rewrite terminate_all_cons.
      rewrite !append_cons. by f_equal.
Qed.

(** X1. [batch] panics exactly on a negative cursor and on a negative
    size with the cursor inside the list; in every other case (no
    overflow of the sum) it returns. *)
Theorem batch_panics_iff src index size :
  GoInt.in_range index -> GoInt.in_range size ->
  GoInt.in_range (index + size) ->
  batch src index size = None
  <-> index < 0 \/ (index <= len src /\ size < 0).
Proof.
  intros Hi Hs His. pose proof (len_nonneg src) as Hlen.
  unfold batch, slice_from, slice, GoInt.add. rewrite wrap_in_range by done.
  destruct (Z.ltb_spec (len src) index);
    [split; [done | lia] |].
  destruct (Z.ltb_spec (len src) (index + size));
    destruct (Z.leb_spec 0 index); simpl;
    try destruct (Z.leb_spec index (len src)); simpl;
    try destruct (Z.leb_spec index (index + size)); simpl;
    try destruct (Z.leb_spec (index + size) (len src)); simpl;
    split; (done || lia).
Qed.

Lemma batch_sequence_returns k src size :
  0 < size -> fits src size ->
  forall index,
    0 <= index ->
    exists outs last,
      batch_sequence k src index size = Some (outs, last)
      /\ String.concat "" outs
         = terminate_all (take (k * Z.to_nat size) (drop (Z.to_nat index) src))
      /\ length outs = k.
Proof.
  intros Hs Hfit. induction k as [| k IH]; intros index Hi.
  - by exists [], index.
  - simpl batch_sequence. rewrite batch_returns by (done || lia).
    destruct (IH (next_cursor src index size)) as (outs & last & -> & Hc & Hl).
    { unfold next_cursor. destruct (_ <? _); lia. }
    exists (batch_at src index size :: outs), last.
    split; [done |]. split; [| by simpl; rewrite Hl].
    assert (String.concat "" (batch_at src index size :: outs)
            = batch_at src index size +:+ String.concat "" outs) as ->.
    { destruct outs; simpl; [by rewrite append_empty_r | done]. }
    rewrite Hc. unfold batch_at. rewrite <- terminate_all_app. f_equal.
    unfold next_cursor. destruct (Z.ltb_spec (len src) index) as [Hpast | Hin].
    + rewrite (drop_ge src (Z.to_nat index)) by (unfold len in *; lia).
      by rewrite !take_nil.
    + replace (Z.to_nat (index + size))
        with (Z.to_nat index + Z.to_nat size)%nat by lia.
      rewrite <- drop_drop. rewrite take_take_drop. f_equal; lia.
Qed.

(** X2. Successive batches cover the list: [k] calls of [batch] from
    cursor 0, with [k] batches of [size] names enough for the list, return
    without panic, and their outputs put together are the whole list, every
    name once and in order, each followed by the separator. *)
Theorem batches_cover_the_list k src size :
  0 < size -> fits src size -> len src <= Z.of_nat k * size ->
  exists outs last,
    batch_sequence k src 0 size = Some (outs, last)
    /\ length outs = k
    /\ String.concat "" outs = terminate_all src.
Proof.
  intros Hs Hfit Hk.
  destruct (batch_sequence_returns k src size Hs Hfit 0 ltac:(lia))
    as (outs & last & Hseq & Hc & Hl).
  exists outs, last. split; [done |]. split; [done |].
  rewrite Hc. simpl drop. rewrite take_ge; [done |]. unfold len in Hk.
  assert (Z.of_nat (k * Z.to_nat size) = Z.of_nat k * size) as Hmul
    by (rewrite Nat2Z.inj_mul, Z2Nat.id; lia).
  apply Nat2Z.inj_le. by rewrite Hmul.
Qed.

(** X3. What a receiver of the request reads: splitting a returned batch
    at the separator gives back exactly the names at positions
    [index .. index + size - 1] of a list of separator-free names,
    followed by one empty piece for the trailing separator. *)
Theorem batch_output_splits_back src index size out index' :
  GoInt.in_range index -> GoInt.in_range size ->
  Forall (fun t => Strings.count pipe t = O) src ->
  batch src index size = Some (out, index') ->
  Strings.Split out pipe
  = (take (Z.to_nat size) (drop (Z.to_nat index) src) ++ [""])%list.
Proof.
  intros Hi Hs Hsrc Hb. rewrite (batch_result _ _ _ _ _ Hi Hs Hb).
  unfold batch_at. apply Split_terminate_all. by apply Forall_take, Forall_drop.
Qed.

(** ** The loop on a small instance *)

Section SmallInstance.

Context {Data Tmpl : Type} `{!Collaborators Data Tmpl}.
Variable n : Notifier Tmpl.

Lemma batch_loop_unfold fuel nw toUser toParty toTag messages us ps ts
    (group : Group) :
  batch_loop (S fuel) n nw toUser toParty toTag messages us ps ts group
  = if exhausted toUser toParty toTag us ps ts then mret group
    else
      '(us, ps, ts, group) ←
        loop_body n nw toUser toParty toTag messages us ps ts group;
      batch_loop fuel n nw toUser toParty toTag messages us ps ts group.
Proof. reflexivity. Qed.

Lemma batch_at_whole src size :
  len src <= size -> batch_at src 0 size = terminate_all src.
Proof.
  intros H. unfold batch_at. change (Z.to_nat 0) with 0%nat.
  rewrite drop_0, take_ge; [done |]. unfold len in H. lia.
Qed.

Lemma single_iteration fuel nw toUser toParty toTag messages
    (group : Group) σ o :
  toUser <> [] -> toParty <> [] -> toTag <> [] ->
  len toUser <= ToUserBatchSize -> len toParty <= ToPartyBatchSize ->
  len toTag <= ToTagBatchSize ->
  heap σ !! nw = Some o ->
  batch_loop (S (S fuel)) n nw toUser toParty toTag messages 0 0 0 group σ
  = Done (group ++ (send n nw <$> messages))%list
      (set_heap
         (<[nw := with_ToTag (terminate_all toTag)
                    (with_ToParty (terminate_all toParty)
                       (with_ToUser (terminate_all toUser) o))]>
            (heap σ)) σ).
Proof.
  intros Nu Np Nt Lu Lp Lt Ho.
  assert (0 < len toUser) as Pu by (destruct toUser; [done | unfold len; simpl; lia]).
  assert (forall src size, len src <= size -> size <= 1000 -> fits src size)
    as Hfits.
  { intros src size H1 H2. unfold fits, GoInt.max_int. lia. }
  unfold ToUserBatchSize, ToPartyBatchSize, ToTagBatchSize in *.
  rewrite batch_loop_unfold.
  assert (exhausted toUser toParty toTag 0 0 0 = false) as ->.
  { unfold exhausted. destruct (Z.leb_spec (len toUser) 0); [lia | done]. }
  rewrite (bind_Done _ _ _ _ _
             (loop_body_Done n nw toUser toParty toTag messages 0 0 0 group
                σ o (Hfits _ _ Lu ltac:(lia)) (Hfits _ _ Lp ltac:(lia))
                (Hfits _ _ Lt ltac:(lia)) ltac:(lia) ltac:(lia) ltac:(lia)
                Ho)).
  pose proof (len_nonneg toUser). pose proof (len_nonneg toParty).
  pose proof (len_nonneg toTag).
  unfold next_cursor, ToUserBatchSize, ToPartyBatchSize, ToTagBatchSize.
  destruct (Z.ltb_spec (len toUser) 0); [lia |].
  destruct (Z.ltb_spec (len toParty) 0); [lia |].
  destruct (Z.ltb_spec (len toTag) 0); [lia |].
  rewrite batch_loop_unfold.
  assert (exhausted toUser toParty toTag (0 + 1000) (0 + 100) (0 + 100)
          = true) as ->.
  { unfold exhausted.
    destruct (Z.leb_spec (len toUser) (0 + 1000)); [| lia].
    destruct (Z.leb_spec (len toParty) (0 + 100)); [| lia].
    destruct (Z.leb_spec (len toTag) (0 + 100)); [done | lia]. }
  unfold written, ToUserBatchSize, ToPartyBatchSize, ToTagBatchSize.
  by rewrite !batch_at_whole by done.
Qed.

Lemma dispatch_single_batch messages (group : Group) w σ :
  single_batch w ->
  dispatch n messages group w σ
  = Done (group ++ (send n (fresh (dom (heap σ))) <$> messages))%list
      (set_heap (<[fresh (dom (heap σ)) := terminated w]> (heap σ)) σ).
Proof.
  intros (Lu & Lp & Lt). unfold dispatch.
  set (nw := fresh (dom (heap σ))).
  set (σ0 := set_heap (<[nw := Clone w]> (heap σ)) σ).
  assert (alloc (Clone w) σ = Done nw σ0) as Ha by reflexivity.
  rewrite (bind_Done _ _ _ _ _ Ha).
  pose proof (Split_not_nil (ToUser w) pipe) as Nu.
  pose proof (Split_not_nil (ToParty w) pipe) as Np.
  pose proof (Split_not_nil (ToTag w) pipe) as Nt.
  assert (exists fuel,
            loop_fuel (Strings.Split (ToUser w) pipe)
              (Strings.Split (ToParty w) pipe) (Strings.Split (ToTag w) pipe)
            = S (S fuel)) as [fuel ->].
  { unfold loop_fuel. destruct (Strings.Split (ToUser w) pipe); [done |].
    simpl. by eexists. }
  rewrite (single_iteration fuel nw _ _ _ messages group σ0 (Clone w))
    by (done || (subst σ0; simpl; apply lookup_insert_eq)).
  rewrite !terminate_all_Split. subst σ0. unfold set_heap. simpl.
  by rewrite insert_insert_eq.
Qed.

(** X4. An instance whose three lists fit one batch each is dispatched
    in exactly one iteration: one task per message is registered, and the
    object the tasks read holds every destination of the instance, each
    destination string followed by one separator. *)
Theorem small_instance_single_iteration messages (group : Group) w σ :
  single_batch w ->
  dispatch n messages group w σ
  = Done (group ++ (send n (fresh (dom (heap σ))) <$> messages))%list
      (set_heap (<[fresh (dom (heap σ)) := terminated w]> (heap σ)) σ).
Proof. apply dispatch_single_batch. Qed.

End SmallInstance.

(** ** Building the notifier *)

Section Building.

Context {Data Tmpl : Type} `{!Collaborators Data Tmpl}.

Lemma add_receiver_ignored m r : ignored r -> add_receiver m r = m.
Proof.
  destruct r as [[receiver |] |]; simpl; try done.
  destruct (Config receiver) as [c |]; [| done]. by intros [e ->].
Qed.

(** X5. A receiver that is not a WeChat receiver, is nil, has no config
    or cannot be hashed is passed over: the notifier built with it among
    the receivers is the notifier built without it. *)
Theorem ignored_receiver_changes_nothing rs1 r rs2 cfg :
  ignored r ->
  NewWechatNotifier (rs1 ++ r :: rs2) cfg = NewWechatNotifier (rs1 ++ rs2) cfg.
Proof.
  intros Hr. unfold NewWechatNotifier.
  destruct (NewTemplate _); [| done]. do 2 f_equal.
  rewrite !fold_left_app. simpl. by rewrite add_receiver_ignored.
Qed.

Lemma default_APIURL_not_empty c : APIURL (default_APIURL c) <> "".
Proof.
  unfold default_APIURL. destruct (APIURL c) eqn:Hu; simpl; [done |].
  by rewrite Hu.
Qed.

Lemma add_receiver_configured m r :
  (forall key w, m !! key = Some w ->
                 exists c, Config w = Some c /\ APIURL c <> "") ->
  forall key w, add_receiver m r !! key = Some w ->
                exists c, Config w = Some c /\ APIURL c <> "".
Proof.
  intros Hm key w. destruct r as [[receiver |] |]; simpl; try apply Hm.
  destruct (Config receiver) as [c |]; [| apply Hm].
  destruct (Md5key _) as [k | e]; [| apply Hm].
  rewrite lookup_insert. case_decide as Hk; [| apply Hm].
  intros [= <-]. simpl.
  destruct (m !! k) as [w0 |] eqn:Hw0; simpl.
  - by apply (Hm k).
  - exists (default_APIURL c). split; [done | apply default_APIURL_not_empty].
Qed.

Lemma NewWechatNotifier_configured rs cfg n key w :
  NewWechatNotifier rs cfg = Some n ->
  wechat n !! key = Some w ->
  exists c, Config w = Some c /\ APIURL c <> "".
Proof.
  unfold NewWechatNotifier. destruct (NewTemplate _) as [tmpl |]; [| done].
  intros [= <-]. cbn [wechat set_wechat]. rewrite apply_options_wechat.
  cbn [wechat]. revert key w.
  assert (forall m,
            (forall key w, m !! key = Some w ->
                           exists c, Config w = Some c /\ APIURL c <> "") ->
            forall key w, fold_left add_receiver rs m !! key = Some w ->
                          exists c, Config w = Some c /\ APIURL c <> "")
    as Hfold.
  { induction rs as [| r rs' IH]; intros m Hm; [done |].
    simpl. apply IH. by apply add_receiver_configured. }
  apply Hfold. intros key w. by rewrite lookup_empty.
Qed.

(** X6. Every instance of a notifier built by [NewWechatNotifier] has a
    config, and the API URL of that config is not empty: a receiver without
    a config never becomes an instance and an empty URL is replaced by the
    default one. *)
Theorem instances_are_configured rs cfg n key w :
  NewWechatNotifier rs cfg = Some n ->
  wechat n !! key = Some w ->
  exists c, Config w = Some c /\ APIURL c <> "".
Proof. apply NewWechatNotifier_configured. Qed.

End Building.

Section Merging.

Context {Data Tmpl : Type} `{!Collaborators Data Tmpl}.

Lemma add_receiver_merged m c ns key au ap at_ d :
  Md5key (normalized c ns) = Ok key ->
  default (normalized c ns) (m !! key) = merged c ns au ap at_ ->
  Forall valid_name au -> Forall valid_name ap -> Forall valid_name at_ ->
  valid_destinations d ->
  add_receiver m
    (WechatReceiver (Some (receiver_of c ns (users d) (parties d) (tags d))))
  = <[key := merged c ns (au ++ users d) (ap ++ parties d) (at_ ++ tags d)]> m.
Proof.
  intros Hkey Hw Hu Hp Ht (Vu & Vp & Vt).
  rewrite (add_receiver_receiver_of m c ns _ _ _ key Hkey). f_equal.
  rewrite Hw. unfold merged, with_ToParty, with_ToTag, with_ToUser. simpl.
  by rewrite !append_destination_Join by done.
Qed.

Lemma receivers_of_cons c ns d ds :
  receivers_of c ns (d :: ds)
  = WechatReceiver (Some (receiver_of c ns (users d) (parties d) (tags d)))
      :: receivers_of c ns ds.
Proof. reflexivity. Qed.

Lemma fold_add_receiver_merged c ns key ds :
  Md5key (normalized c ns) = Ok key ->
  Forall valid_destinations ds ->
  forall m au ap at_,
    m !! key = Some (merged c ns au ap at_) ->
    Forall valid_name au -> Forall valid_name ap -> Forall valid_name at_ ->
    fold_left add_receiver (receivers_of c ns ds) m
    = <[key := merged c ns (au ++ concat (users <$> ds))
                 (ap ++ concat (parties <$> ds))
                 (at_ ++ concat (tags <$> ds))]> m.
Proof.
  intros Hkey. induction 1 as [| d ds Hd _ IH]; intros m au ap at_ Hm Hu Hp Ht.
  - simpl. rewrite !app_nil_r. by rewrite insert_id.
  - rewrite receivers_of_cons. cbn [fold_left].
    rewrite (add_receiver_merged m c ns key au ap at_ d) by
      (done || by rewrite Hm).
    destruct Hd as (Vu & Vp & Vt).
    rewrite (IH _ (au ++ users d) (ap ++ parties d) (at_ ++ tags d))%list
      by (apply lookup_insert_eq || by apply Forall_app).
    by rewrite insert_insert_eq, <- !app_assoc.
Qed.

(** X7. Any number of receivers of one transport identity merge into one
    instance: its destination strings join, in the order of the receivers,
    all their users, all their parties and all their tags. *)
Theorem merge_any_number cfg tmpl c ns key d ds :
  NewTemplate (template_files (ReceiverOpts cfg)) = Ok tmpl ->
  Md5key (normalized c ns) = Ok key ->
  Forall valid_destinations (d :: ds) ->
  exists n,
    NewWechatNotifier (receivers_of c ns (d :: ds)) cfg = Some n
    /\ wechat n
       = {[ key := merged c ns (concat (users <$> d :: ds))
                     (concat (parties <$> d :: ds))
                     (concat (tags <$> d :: ds)) ]}.
Proof.
  intros Htmpl Hkey Hds. inversion Hds as [| ? ? Hd Hds']; subst.
  unfold NewWechatNotifier. rewrite Htmpl. eexists. split; [done |].
  cbn [wechat set_wechat]. rewrite apply_options_wechat. cbn [wechat].
  rewrite receivers_of_cons. cbn [fold_left].
  rewrite (add_receiver_merged ∅ c ns key [] [] [] d) by
    (done || constructor || by rewrite lookup_empty).
  destruct Hd as (Vu & Vp & Vt).
  rewrite (fold_add_receiver_merged c ns key ds Hkey Hds' _
             ([] ++ users d) ([] ++ parties d) ([] ++ tags d))%list
    by (apply lookup_insert_eq || done).
  by rewrite insert_insert_eq, insert_empty.
Qed.

(** X8. Receivers of different transport identities (different hashes)
    are kept apart: each becomes an instance of its own, with its own
    destinations and nothing of the other's. *)
Theorem distinct_identities_stay_apart cfg tmpl c1 ns1 c2 ns2 k1 k2 d1 d2 :
  NewTemplate (template_files (ReceiverOpts cfg)) = Ok tmpl ->
  Md5key (normalized c1 ns1) = Ok k1 ->
  Md5key (normalized c2 ns2) = Ok k2 ->
  k1 <> k2 ->
  valid_destinations d1 -> valid_destinations d2 ->
  exists n,
    NewWechatNotifier (receivers_of c1 ns1 [d1] ++ receivers_of c2 ns2 [d2])
      cfg = Some n
    /\ wechat n
       = <[k2 := merged c2 ns2 (users d2) (parties d2) (tags d2)]>
           {[ k1 := merged c1 ns1 (users d1) (parties d1) (tags d1) ]}
    /\ size (wechat n) = 2%nat.
Proof.
  intros Htmpl H1 H2 Hne V1 V2.
  unfold NewWechatNotifier. rewrite Htmpl. eexists. split; [done |].
  cbn [wechat set_wechat]. rewrite apply_options_wechat. cbn [wechat].
  rewrite !receivers_of_cons. cbn [receivers_of fmap list_fmap app fold_left].
  rewrite (add_receiver_merged ∅ c1 ns1 k1 [] [] [] d1) by
    (done || constructor || by rewrite lookup_empty).
  rewrite (add_receiver_merged _ c2 ns2 k2 [] [] [] d2) by
    (done || constructor || by rewrite lookup_insert_ne, lookup_empty).
  rewrite insert_empty. split; [done |].
  rewrite map_size_insert_None by (by rewrite lookup_singleton_ne).
  by rewrite map_size_singleton.
Qed.

(** X9. A notification timeout of [t] seconds, [t] any 32-bit integer,
    becomes a timeout of exactly [t] seconds: the multiplication by
    [time.Second] does not overflow. Negative and zero values are accepted
    as they are. *)
Theorem timeout_in_seconds rs cfg o wo t n :
  ReceiverOpts cfg = Some o -> OptWechat o = Some wo ->
  NotificationTimeout wo = Some t ->
  - 2 ^ 31 <= t < 2 ^ 31 ->
  NewWechatNotifier rs cfg = Some n ->
  timeout n = Second * t.
Proof.
  intros Ho Hwo Ht Hrange. unfold NewWechatNotifier.
  destruct (NewTemplate _) as [tmpl |]; [| done]. intros [= <-].
  cbn [timeout set_wechat]. rewrite Ho. unfold apply_options.
  rewrite Hwo. cbn [timeout]. rewrite Ht. apply wrap_in_range.
  unfold GoInt.in_range, GoInt.min_int, GoInt.max_int, Second. lia.
Qed.

(** X10. Without a WeChat block in the options the global options are
    not looked at: whatever template the global block names, the notifier
    keeps the default template, timeout, message size and token
    lifetime. *)
Theorem global_template_needs_wechat_block rs cfg o n :
  ReceiverOpts cfg = Some o -> OptWechat o = None ->
  NewWechatNotifier rs cfg = Some n ->
  templateName n = DefaultTemplate /\ timeout n = DefaultSendTimeout
  /\ messageMaxSize n = MessageMaxSize /\ tokenExpires n = DefaultExpires.
Proof.
  intros Ho Hwo. unfold NewWechatNotifier.
  destruct (NewTemplate _) as [tmpl |]; [| done]. intros [= <-].
  rewrite Ho. unfold apply_options. by rewrite Hwo.
Qed.

End Merging.

(** ** Tasks *)

Section Tasks.

Context {Data Tmpl : Type} `{!Collaborators Data Tmpl}.
Variable n : Notifier Tmpl.

(** A task that returns made one attempt that did not ask for a retry,
    or one that did followed by a second, final one. *)
Lemma send_inv w msg σ err σ' :
  send n w msg σ = Done err σ' ->
  exists o c,
    heap σ !! w = Some o /\ Config o = Some c
    /\ (attempt (body_of o c msg) σ σ' false err
        \/ exists first σ1 retry2,
             attempt (body_of o c msg) σ σ1 true first
             /\ attempt (body_of o c msg) σ1 σ' retry2 err).
Proof.
  unfold send. intros H.
  apply bind_inv in H as (o & σ0 & Ho & H). apply load_inv in Ho as [-> Ho].
  apply bind_inv in H as (c & σ0 & Hc & H).
  apply config_of_inv in Hc as [-> Hc].
  apply bind_inv in H as ([retry first] & σ1 & H1 & H).
  apply sendMessage_attempt in H1. exists o, c. split; [done |].
  split; [done |]. destruct retry.
  - apply bind_inv in H as ([retry2 second] & σ2 & H2 & H).
    apply sendMessage_attempt in H2. apply mret_inv in H as [<- <-].
    right. by exists first, σ1, retry2.
  - apply mret_inv in H as [<- <-]. by left.
Qed.

Lemma send_last_attempt w msg σ err σ' :
  send n w msg σ = Done err σ' ->
  exists q σa retry, attempt q σa σ' retry err.
Proof.
  intros H. apply send_inv in H as (o & c & _ & _ & [A | (f & σ1 & r & _ & A)]);
    by eexists _, _, _.
Qed.

(** X11. A transport error or an undecodable answer to the send request
    of the last attempt is returned as the error of the task, as it is. *)
Theorem transport_error_is_reported w msg σ err σ' reply e :
  send n w msg σ = Done err σ' ->
  post_reply (trace σ') = Some reply ->
  reply = HttpError e \/ reply = BadBody e ->
  err = Some e.
Proof.
  intros H Hreply Hkind.
  apply send_last_attempt in H as (q & σa & retry & A).
  destruct A as [? ? _ Ht Hq | ? ? ? ? _ Ht Hq Hx | ? ? ? ? ? _ Ht Hq Hx];
    rewrite Ht in Hreply; simpl in Hreply.
  - by rewrite post_reply_quiet in Hreply.
  - injection Hreply as ->. by destruct Hkind as [-> | ->].
  - injection Hreply as <-. by destruct Hkind.
Qed.

(** X12. A task returns [nil] only if the send request of its last
    attempt was posted and answered with a decodable body whose code is
    not the token-expired one: no task succeeds without an answer. *)
Theorem nil_means_answered w msg σ σ' :
  send n w msg σ = Done None σ' ->
  exists resp,
    post_reply (trace σ') = Some (Json resp)
    /\ Code resp <> AccessTokenInvalid.
Proof.
  intros H. apply send_last_attempt in H as (q & σa & retry & A).
  inversion A as [| method url reply evs _ Ht Hq Hx Hr Herr |]; subst.
  destruct reply as [| | resp]; try done.
  exists resp. rewrite Ht. split; [done |]. simpl in Hx. by apply Z.eqb_neq.
Qed.

Lemma attempt_posted_count q σ σ' retry err :
  attempt q σ σ' retry err ->
  exists k, (k <= 1)%nat
            /\ posted (trace σ') = (replicate k q ++ posted (trace σ))%list.
Proof.
  intros A. destruct (attempt_posted _ _ _ _ _ A) as [-> | ->].
  - exists 0%nat. split; [lia | done].
  - exists 1%nat. split; [lia | done].
Qed.

Lemma task_posts_one_body_aux w msg σ err σ' :
  send n w msg σ = Done err σ' ->
  exists o c k,
    heap σ !! w = Some o /\ Config o = Some c /\ (k <= 2)%nat
    /\ posted (trace σ')
       = (replicate k (body_of o c msg) ++ posted (trace σ))%list.
Proof.
  intros H. apply send_inv in H
    as (o & c & Ho & Hc & [A | (f & σ1 & r & A1 & A2)]);
    exists o, c.
  - destruct (attempt_posted_count _ _ _ _ _ A) as (k & Hk & ->).
    exists k. repeat split; try done. lia.
  - destruct (attempt_posted_count _ _ _ _ _ A1) as (k1 & Hk1 & E1).
    destruct (attempt_posted_count _ _ _ _ _ A2) as (k2 & Hk2 & ->).
    exists (k2 + k1)%nat. repeat split; try done; [lia |].
    by rewrite E1, replicate_add, app_assoc.
Qed.

(** X13. A task posts at most two requests, and every request it posts
    carries the same body: the message and the destinations read from the
    object when the task started. A retry re-sends that body unchanged. *)
Theorem task_posts_one_body w msg σ err σ' :
  send n w msg σ = Done err σ' ->
  exists o c k,
    heap σ !! w = Some o /\ Config o = Some c /\ (k <= 2)%nat
    /\ posted (trace σ')
       = (replicate k (body_of o c msg) ++ posted (trace σ))%list.
Proof. apply task_posts_one_body_aux. Qed.

Lemma send_attempts w msg σ err σ' :
  send n w msg σ = Done err σ' ->
  (S (attempts σ) <= attempts σ' <= S (S (attempts σ)))%nat.
Proof.
  intros H. apply send_inv in H
    as (o & c & _ & _ & [A | (f & σ1 & r & A1 & A2)]).
  - rewrite (attempt_counted _ _ _ _ _ A). lia.
  - rewrite (attempt_counted _ _ _ _ _ A2), (attempt_counted _ _ _ _ _ A1).
    lia.
Qed.

Lemma Wait_bounds (g : Group) :
  sends n g ->
  forall σ errs σ',
    Wait g σ = Done errs σ' ->
    (length errs <= length g)%nat
    /\ (attempts σ + length g <= attempts σ')%nat
    /\ (attempts σ' <= attempts σ + 2 * length g)%nat.
Proof.
  induction 1 as [| task g (w & msg & ->) _ IH]; intros σ errs σ' H.
  - apply mret_inv in H as [<- <-]. simpl. lia.
  - simpl in H. apply bind_inv in H as (r & σ1 & Hs & H).
    apply bind_inv in H as (errs' & σ2 & Hw & H).
    apply mret_inv in H as [<- <-].
    apply send_attempts in Hs. apply IH in Hw as (He & Hlo & Hhi).
    destruct r; simpl; lia.
Qed.

Lemma Wait_posted messages (g : Group) :
  chunk_tasks n messages g ->
  forall σ errs σ',
    Wait g σ = Done errs σ' ->
    Forall (well_formed messages) (posted (trace σ)) ->
    Forall (well_formed messages) (posted (trace σ')).
Proof.
  induction 1 as [| task g (w & msg & -> & Hin) _ IH]; intros σ errs σ' H Hp.
  - by apply mret_inv in H as [_ <-].
  - simpl in H. apply bind_inv in H as (r & σ1 & Hs & H).
    apply bind_inv in H as (errs' & σ2 & Hw & H).
    apply mret_inv in H as [_ <-].
    eapply IH; [exact Hw |].
    apply task_posts_one_body_aux in Hs as (o & c & k & _ & _ & _ & ->).
    apply Forall_app. split; [| done]. by apply Forall_replicate.
Qed.

End Tasks.

(** ** [Notify] as a whole *)

Section Whole.

Context {Data Tmpl : Type} `{!Collaborators Data Tmpl}.
Variable n : Notifier Tmpl.

Lemma batch_loop_tasks fuel nw toUser toParty toTag messages :
  forall us ps ts (group group' : Group) σ σ',
    batch_loop fuel n nw toUser toParty toTag messages us ps ts group σ
    = Done group' σ' ->
    exists tasks,
      group' = (group ++ tasks)%list /\ chunk_tasks n messages tasks
      /\ trace σ' = trace σ.
Proof.
  induction fuel as [| fuel IH];
    intros us ps ts group group' σ σ' H; [done |].
  simpl in H. destruct (exhausted _ _ _ us ps ts).
  { apply mret_inv in H as [<- <-]. exists [].
    split; [by rewrite app_nil_r |]. split; [constructor | done]. }
  apply bind_inv in H as ([[[us1 ps1] ts1] group1] & σ1 & Hb & H).
  apply loop_body_inv in Hb as (o & bu & bp & bt & _ & _ & _ & _ & -> & ->).
  apply IH in H as (tasks & -> & Htasks & Htr).
  exists ((send n nw <$> messages) ++ tasks)%list.
  split; [by rewrite app_assoc |]. split; [| exact Htr].
  apply Forall_app. split; [| done].
  apply Forall_fmap, Forall_forall. intros msg Hin. by exists nw, msg.
Qed.

Lemma for_each_tasks messages ws :
  forall (group group' : Group) σ σ',
    for_each n messages ws group σ = Done group' σ' ->
    exists tasks,
      group' = (group ++ tasks)%list /\ chunk_tasks n messages tasks
      /\ trace σ' = trace σ.
Proof.
  induction ws as [| w ws IH]; intros group group' σ σ' H.
  - apply mret_inv in H as [<- <-]. exists [].
    split; [by rewrite app_nil_r |]. split; [constructor | done].
  - simpl in H. apply bind_inv in H as (group1 & σ1 & Hd & H).
    unfold dispatch in Hd. apply bind_inv in Hd as (nw & σ0 & Ha & Hd).
    unfold alloc in Ha. injection Ha as <- <-.
    apply batch_loop_tasks in Hd as (tasks1 & -> & Ht1 & Htr1).
    apply IH in H as (tasks2 & -> & Ht2 & Htr2).
    exists (tasks1 ++ tasks2)%list. split; [by rewrite app_assoc |].
    split; [by apply Forall_app |]. by rewrite Htr2, Htr1.
Qed.

(** X14. Every request body [Notify] posts is built from one of the
    chunks the splitter returned: its text is one of the chunks, its
    message type is "text" and its safe flag "0". Nothing else is ever
    sent. *)
Theorem posted_bodies_are_chunks data messages σ errs σ' :
  TemplateSplit (template n) data MessageMaxSize (templateName n)
  = Ok messages ->
  Notify n data σ = Done errs σ' ->
  Forall (well_formed messages) (posted (trace σ)) ->
  Forall (well_formed messages) (posted (trace σ')).
Proof.
  intros Hsplit. unfold Notify. rewrite Hsplit. intros H Hp.
  apply bind_inv in H as (group & σ1 & Hf & H).
  apply for_each_tasks in Hf as (tasks & -> & Ht & Htr).
  eapply (Wait_posted n messages); [exact Ht | exact H |]. by rewrite Htr.
Qed.

(** X15. When there is no instance, or the splitter returns no chunk,
    [Notify] posts nothing, makes no attempt and returns the empty list. *)
Theorem nothing_to_send data σ errs σ' :
  wechat n = ∅
  \/ TemplateSplit (template n) data MessageMaxSize (templateName n) = Ok [] ->
  Notify n data σ = Done errs σ' ->
  errs = [] /\ trace σ' = trace σ.
Proof.
  unfold Notify. intros Hcase H.
  destruct (TemplateSplit _ _ _ _) as [messages | e];
    [| by apply mret_inv in H as [<- <-]].
  apply bind_inv in H as (group & σ1 & Hf & H).
  assert (group = [] /\ trace σ1 = trace σ) as [-> Htr].
  { destruct Hcase as [Hempty | [= ->]].
    - rewrite Hempty, map_to_list_empty in Hf.
      by apply mret_inv in Hf as [<- <-].
    - apply for_each_tasks in Hf as (tasks & -> & Ht & Htr).
      split; [| done]. destruct Ht as [| task tasks (w & msg & _ & Hin) _];
        [done |]. by apply elem_of_nil in Hin. }
  apply mret_inv in H as [<- <-]. by split.
Qed.

Lemma for_each_single_batch messages ws :
  Forall single_batch ws ->
  forall (group group' : Group) σ σ',
    for_each n messages ws group σ = Done group' σ' ->
    exists tasks,
      group' = (group ++ tasks)%list /\ sends n tasks
      /\ length tasks = (length ws * length messages)%nat.
Proof.
  induction 1 as [| w ws Hw _ IH]; intros group group' σ σ' H.
  - apply mret_inv in H as [<- <-]. exists [].
    split; [by rewrite app_nil_r |]. split; [constructor | done].
  - simpl in H. apply bind_inv in H as (group1 & σ1 & Hd & H).
    rewrite (dispatch_single_batch n messages group w σ Hw) in Hd.
    injection Hd as <- <-.
    apply IH in H as (tasks & -> & Ht & Hlen).
    exists ((send n (fresh (dom (heap σ))) <$> messages) ++ tasks)%list.
    split; [by rewrite app_assoc |]. split.
    + apply Forall_app. split; [| done].
      apply Forall_fmap, Forall_true. intros msg. by eexists _, msg.
    + rewrite length_app, length_fmap, Hlen. simpl. lia.
Qed.

(** X16. With instances that fit one batch each, [Notify] runs
    [instances * chunks] tasks: it returns at most that many errors and
    makes at least that many and at most twice that many attempts. *)
Theorem attempts_are_bounded data messages σ errs σ' :
  (forall key w, wechat n !! key = Some w -> single_batch w) ->
  TemplateSplit (template n) data MessageMaxSize (templateName n)
  = Ok messages ->
  Notify n data σ = Done errs σ' ->
  (length errs <= size (wechat n) * length messages)%nat
  /\ (attempts σ + size (wechat n) * length messages <= attempts σ')%nat
  /\ (attempts σ' <= attempts σ + 2 * (size (wechat n) * length messages))%nat.
Proof.
  intros Hws Hsplit. unfold Notify. rewrite Hsplit. intros H.
  apply bind_inv in H as (group & σ1 & Hf & H).
  pose proof (for_each_tasks _ _ _ _ _ _ Hf) as (_ & _ & _ & Htr).
  apply for_each_single_batch in Hf as (tasks & -> & Ht & Hlen).
  - rewrite length_fmap, length_map_to_list in Hlen.
    apply (Wait_bounds n _ Ht) in H as (He & Hlo & Hhi).
    unfold attempts in *. rewrite Htr in Hlo, Hhi. simpl in *.
    rewrite Hlen in He, Hlo, Hhi. lia.
  - apply Forall_fmap, Forall_forall. intros [key w] Hin.
    apply elem_of_map_to_list in Hin. by apply (Hws key).
Qed.

End Whole.

(** ** Tokens *)

Section Tokens.

Context {Data Tmpl : Type} `{!Collaborators Data Tmpl}.
Variable n : Notifier Tmpl.

(** With no goroutine pending, a scheduling point changes nothing but
    the scheduler's own script. *)
Lemma yield_idle σ :
  pending σ = [] ->
  exists σ',
    yield σ = Done tt σ' /\ heap σ' = heap σ /\ cache σ' = cache σ
    /\ trace σ' = trace σ /\ replies σ' = replies σ.
Proof.
  intros Hp. unfold yield, mbind, M_bind, bind, get, modify, mret, M_ret, ret.
  destruct (schedule σ) as [| [] later]; simpl.
  - by eexists.
  - eexists. split; [done |]. unfold run_pending. simpl. by rewrite Hp.
  - by eexists.
Qed.

(** X17. The token cache is keyed by corp id and agent id only. A token
    cached under that pair is handed to every instance with the same pair,
    whatever its API URL, secret and namespace, without any HTTP exchange
    and without touching the cache. *)
Theorem cached_token_is_shared w σ o c c0 t :
  heap σ !! w = Some o -> Config o = Some c -> pending σ = [] ->
  CorpID c0 = CorpID c -> AgentID c0 = AgentID c ->
  cache σ !! token_key c0 = Some t ->
  exists σ',
    getToken n w σ = Done (Ok t) σ'
    /\ trace σ' = trace σ /\ replies σ' = replies σ /\ cache σ' = cache σ.
Proof.
  intros Ho Hc Hp Hcorp Hagent Hcache.
  assert (token_key c0 = token_key c) as Hkey
    by (unfold token_key; by rewrite Hcorp, Hagent).
  rewrite Hkey in Hcache.
  destruct (yield_idle σ Hp) as (σ1 & Hy & Hh & Hca & Htr & Hre).
  exists σ1. unfold getToken.
  rewrite (bind_Done _ _ _ _ _ (load_Done w σ o Ho)).
  rewrite (bind_Done _ _ _ _ _ (config_of_Done o c σ Hc)).
  rewrite (bind_Done _ _ _ _ _ Hy).
  unfold GetToken, mbind, M_bind, bind, get. rewrite Hca, Hcache. done.
Qed.

(** X18. [invalidToken] removes exactly the entry [getToken] looks up:
    once the invalidation has run, the next [getToken] for the same
    instance does not answer from the cache. If it returns a token, the
    token was fetched with a GET exchange right then and is the one now
    cached. *)
Theorem invalidation_forces_refetch w σ o c t σ' :
  heap σ !! w = Some o -> Config o = Some c -> pending σ = [] ->
  getToken n w (invalidToken w σ) = Done (Ok t) σ' ->
  exists url resp,
    trace σ'
    = Exchange "GET" url None (Json resp)
        :: Invalidated (token_key c) :: trace σ
    /\ t = AccessToken resp
    /\ cache σ' !! token_key c = Some t.
Proof.
  intros Ho Hc Hp.
  assert (invalidToken w σ = InvalidToken (token_key c) σ) as ->.
  { unfold invalidToken. rewrite Ho. simpl. by rewrite Hc. }
  set (σ0 := InvalidToken (token_key c) σ).
  destruct (yield_idle σ0 Hp) as (σ1 & Hy & Hh & Hca & Htr & Hre).
  unfold getToken.
  rewrite (bind_Done _ _ _ _ _ (load_Done w σ0 o Ho)).
  rewrite (bind_Done _ _ _ _ _ (config_of_Done o c σ0 Hc)).
  rewrite (bind_Done _ _ _ _ _ Hy).
  unfold GetToken. intros H.
  apply bind_inv in H as (s & σ2 & Hg & H). apply get_inv in Hg as [-> ->].
  assert (cache σ1 !! token_key c = None) as Hmiss
    by (rewrite Hca; apply lookup_delete_eq).
  rewrite Hmiss in H.
  apply bind_inv in H as (f & σ2 & Hf & H).
  destruct f as [[token lifetime] | e];
    [| by apply mret_inv in H as [[=] _]].
  apply bind_inv in H as (? & σ3 & Hm & H). apply modify_inv in Hm.
  apply mret_inv in H as [[= ->] <-]. subst σ3.
  revert Hf.
  repeat case_match; try (by intros [[=] _]%mret_inv).
  intros Hf. apply bind_inv in Hf as (reply & σ3 & Hd & Hf).
  apply DoHttpRequest_inv in Hd as [_ Ht3].
  destruct reply as [| | resp]; try (by apply mret_inv in Hf as [[=] _]).
  apply mret_inv in Hf as [[= <- _] <-].
  eexists _, resp. split; [| split; [done |]].
  - simpl. by rewrite Ht3, Htr.
  - simpl. apply lookup_insert_eq.
Qed.

End Tokens.

(** ** A notifier built by [NewWechatNotifier], running *)

Section Running.

Context {Data Tmpl : Type} `{!Collaborators Data Tmpl}.

(** X19. [Notify] on a notifier built by [NewWechatNotifier] never
    dereferences a nil config and never runs out of its loop: it returns,
    for every alert data and every world whose heap objects have a config,
    as long as the destination lists fit Go's [int]. *)
Theorem built_notifier_returns rs cfg n data σ :
  NewWechatNotifier rs cfg = Some n ->
  (forall key w, wechat n !! key = Some w ->
     fits (Strings.Split (ToUser w) pipe) ToUserBatchSize
     /\ fits (Strings.Split (ToParty w) pipe) ToPartyBatchSize
     /\ fits (Strings.Split (ToTag w) pipe) ToTagBatchSize) ->
  configured_heap σ ->
  returns (Notify n data) σ.
Proof.
  intros Hn Hfits Hσ. apply Notify_returns; [done |].
  intros key w Hw. split; [| by apply (Hfits key)].
  destruct (NewWechatNotifier_configured rs cfg n key w Hn Hw) as (c & -> & _).
  by eexists.
Qed.

Variable n : Notifier Tmpl.

Lemma send_heap w msg σ err σ' :
  send n w msg σ = Done err σ' -> heap σ' = heap σ.
Proof.
  intros H. apply send_inv in H
    as (o & c & _ & _ & [A | (f & σ1 & r & A1 & A2)]).
  - by eapply attempt_heap.
  - rewrite (attempt_heap _ _ _ _ _ A2). by eapply attempt_heap.
Qed.

Lemma complete_tasks_insert P (g : Group) σ w :
  complete_tasks n P g σ ->
  complete_tasks n P g
    (set_heap (<[fresh (dom (heap σ)) := w]> (heap σ)) σ).
Proof.
  intros Hg. eapply Forall_impl; [exact Hg |].
  intros task (nw & msg & w0 & -> & Hnw & Hw0). exists nw, msg, w0.
  split; [done |]. split; [| done]. simpl. rewrite lookup_insert_ne; [done |].
  intros <-. pose proof (is_fresh (dom (heap σ))) as Hfresh.
  apply Hfresh. apply elem_of_dom. by eexists.
Qed.

Lemma for_each_complete (P : Wechat -> Prop) messages ws :
  Forall (fun w => single_batch w /\ P w) ws ->
  forall (group group' : Group) σ σ',
    complete_tasks n P group σ ->
    for_each n messages ws group σ = Done group' σ' ->
    complete_tasks n P group' σ' /\ trace σ' = trace σ.
Proof.
  induction 1 as [| w ws [Hw HP] _ IH]; intros group group' σ σ' Hg H.
  - by apply mret_inv in H as [<- <-].
  - simpl in H. apply bind_inv in H as (group1 & σ1 & Hd & H).
    rewrite (dispatch_single_batch n messages group w σ Hw) in Hd.
    injection Hd as <- <-.
    apply IH in H as [Hg' Htr]; [done |].
    apply Forall_app. split; [by apply complete_tasks_insert |].
    apply Forall_fmap, Forall_true. intros msg.
    exists (fresh (dom (heap σ))), msg, w. split; [done |].
    split; [| done]. simpl. apply lookup_insert_eq.
Qed.

Lemma Wait_complete (P : Wechat -> Prop) (g : Group) :
  forall σ errs σ',
    complete_tasks n P g σ ->
    Wait g σ = Done errs σ' ->
    Forall (fun m => exists w, P w /\ carries w m) (posted (trace σ)) ->
    Forall (fun m => exists w, P w /\ carries w m) (posted (trace σ')).
Proof.
  induction g as [| task g IH]; intros σ errs σ' Hg H Hp.
  - by apply mret_inv in H as [_ <-].
  - inversion Hg as [| ? ? (nw & msg & w & -> & Hnw & Hw) Hg']; subst.
    simpl in H. apply bind_inv in H as (r & σ1 & Hs & H).
    apply bind_inv in H as (errs' & σ2 & Hwait & H).
    apply mret_inv in H as [_ <-].
    pose proof (send_heap _ _ _ _ _ Hs) as Hh.
    apply (task_posts_one_body_aux n) in Hs
      as (o & c & k & Ho & _ & _ & Hposted).
    rewrite Hnw in Ho. injection Ho as <-.
    eapply IH; [| exact Hwait |].
    + eapply Forall_impl; [exact Hg' |].
      intros task (nw' & msg' & w' & -> & Hnw' & Hw').
      exists nw', msg', w'. by rewrite Hh.
    + rewrite Hposted. apply Forall_app. split; [| done].
      apply Forall_replicate. by exists w.
Qed.

(** X20. When every instance fits one batch per list, every request
    [Notify] posts carries the complete destinations of one instance of
    the notifier: all its users, all its parties and all its tags, each
    string followed by one separator. *)
Theorem small_instances_get_complete_requests data σ errs σ' :
  (forall key w, wechat n !! key = Some w -> single_batch w) ->
  posted (trace σ) = [] ->
  Notify n data σ = Done errs σ' ->
  Forall (fun m => exists w,
            (exists key, wechat n !! key = Some w) /\ carries w m)
    (posted (trace σ')).
Proof.
  intros Hws Hp. unfold Notify.
  destruct (TemplateSplit _ _ _ _) as [messages | e].
  - intros H. apply bind_inv in H as (group & σ1 & Hf & H).
    apply (for_each_complete (fun w => exists key, wechat n !! key = Some w))
      in Hf as [Hg Htr].
    + eapply Wait_complete; [exact Hg | exact H |]. rewrite Htr, Hp.
      constructor.
    + apply Forall_fmap, Forall_forall. intros [key w] Hin.
      apply elem_of_map_to_list in Hin. split; [by apply (Hws key) |].
      by exists key.
    + constructor.
  - intros [_ <-]%mret_inv. rewrite Hp. constructor.
Qed.

End Running.

(** * The notifier at concrete inputs *)

Import Demo.

(** The scenario of the spec at the level of [batch]: three merged
    destinations and a batch size of 2 give the batches "a|b|" and
    "c|". *)
Example batch_scenario :
  batch ["a"; "b"; "c"] 0 2 = Some ("a|b|", 2)
  /\ batch ["a"; "b"; "c"] 2 2 = Some ("c|", 4).
Proof. by vm_compute. Qed.

(** C1. A send request answered with error code 40001 (neither 0 nor
    42001): the request is sent once and [Notify] returns the empty
    list, so the failure is not reported to the caller. *)
Theorem other_code_is_not_reported :
  notify None [receiver "a" "" ""] ["alert"]
    (world ∅ [token "T"; answer 40001 "invalid credential"] [])
  = Some ([], [message "alert" "a|" "|" "|"]).
Proof. by vm_compute. Qed.

(** C2. One instance with one user and 101 parties, one message. The
    loop runs twice and registers two tasks, both closures over the one
    clone [nw]; when they run, both send what the second iteration wrote:
    no user and the party "p100" only. The user and the parties "p000" to
    "p099" receive nothing, and "p100" receives the message twice. *)
Theorem tasks_share_the_clone :
  notify None [crowd] ["alert"]
    (world ∅ [token "T"; answer 0 ""; answer 0 ""] [])
  = Some ([], [message "alert" "" "p100|" "";
               message "alert" "" "p100|" ""]).
Proof. by vm_compute. Qed.

(** C5. A notifier built with the option [MessageMaxSize = 10] stores 10
    in [messageMaxSize], and the splitter at bound 10 would cut the two
    nine-byte records into two chunks; [Notify] splits at the constant
    2048 instead and sends them as one message of 18 bytes. *)
Theorem configured_size_is_ignored :
  (messageMaxSize <$> notifier_of (options "" 10) [receiver "a" "" ""])
  = Some 10
  /\ split tt ["alert-one"; "alert-two"] 10 DefaultTemplate
     = Ok ["alert-one"; "alert-two"]
  /\ notify (options "" 10) [receiver "a" "" ""] ["alert-one"; "alert-two"]
       (world ∅ [token "T"; answer 0 ""; answer 0 ""] [])
     = Some ([], [message "alert-onealert-two" "a|" "|" "|"]).
Proof. by vm_compute. Qed.

(** C6. A notifier whose template is not defined: the split fails,
    nothing is sent, and [Notify] returns the empty list, which does not
    contain the template error. *)
Theorem template_error_is_swallowed :
  (exists e n,
     notifier_of (options "{{ oops" 0) [receiver "a" "" ""] = Some n
     /\ TemplateSplit (template n) ["alert"] MessageMaxSize (templateName n)
        = Err e)
  /\ notify (options "{{ oops" 0) [receiver "a" "" ""] ["alert"]
       (world ∅ [token "T"; answer 0 ""] [])
     = Some ([], []).
Proof.
  split; [| by vm_compute].
  eexists _, _. split; [reflexivity |]. by vm_compute.
Qed.

(** C7. The cache holds the token "T0". The first attempt is answered
    with the token-expired code and starts the invalidation goroutine;
    the scheduler does not run the goroutine before the retry reads the
    cache. The retry therefore sends the rejected token "T0" again and is
    rejected again; the invalidation has still not taken effect when the
    task ends. *)
Theorem retry_can_reuse_the_rejected_token :
  history_of None [receiver "a" "" ""] ["alert"]
    (world {[ key_of_corp := "T0" ]}
       [answer 42001 "expired"; answer 42001 "expired"] [false; false])
  = Some
      (["expired"],
       [Attempt (message "alert" "a|" "|" "|");
        Exchange "POST" (send_url "T0")
          (Some (message "alert" "a|" "|" "|")) (answer 42001 "expired");
        Go key_of_corp;
        Attempt (message "alert" "a|" "|" "|");
        Exchange "POST" (send_url "T0")
          (Some (message "alert" "a|" "|" "|")) (answer 42001 "expired");
        Go key_of_corp]).
Proof. by vm_compute. Qed.

(** The same task when the scheduler happens to run the goroutine before
    the retry reads the cache: the entry is gone, a new token is fetched
    and the retry succeeds. *)
Example retry_after_prompt_invalidation :
  history_of None [receiver "a" "" ""] ["alert"]
    (world {[ key_of_corp := "T0" ]}
       [answer 42001 "expired"; token "T1"; answer 0 ""] [false; true])
  = Some
      ([],
       [Attempt (message "alert" "a|" "|" "|");
        Exchange "POST" (send_url "T0")
          (Some (message "alert" "a|" "|" "|")) (answer 42001 "expired");
        Go key_of_corp;
        Attempt (message "alert" "a|" "|" "|");
        Invalidated key_of_corp;
        Exchange "GET" token_url None (token "T1");
        Exchange "POST" (send_url "T1")
          (Some (message "alert" "a|" "|" "|")) (answer 0 "")]).
Proof. by vm_compute. Qed.

(** ** The lockstep reading fails *)

(** C9, as stated. For [crowd] the second iteration of the loop starts
    with the cursors at 1000, 100 and 100. The user cursor is past the
    end of the one-name list and the tag cursor past the end of its list:
    [batch] returns early and leaves both where they are; only the party
    cursor advances, to 200. *)
Lemma lockstep_counterexample :
  batch crowd_users 1000 ToUserBatchSize = Some ("", 1000)
  /\ batch crowd_parties 100 ToPartyBatchSize = Some ("p100|", 200)
  /\ batch crowd_tags 100 ToTagBatchSize = Some ("", 100)
  /\ ~ cursors_in_lockstep.
Proof.
  split; [by vm_compute |]. split; [by vm_compute |].
  split; [by vm_compute |].
  intros Hclaim.
  assert (heap (world_of (wechat_of "" "" "") [] []) !! 1%nat
          = Some (wechat_of "" "" "")) as Ho by (by vm_compute).
  assert (fits crowd_users ToUserBatchSize) as Fu by (by vm_compute).
  assert (fits crowd_parties ToPartyBatchSize) as Fp by (by vm_compute).
  assert (fits crowd_tags ToTagBatchSize) as Ft by (by vm_compute).
  pose proof (loop_body_Done (notifier ∅) 1%nat crowd_users crowd_parties
                crowd_tags ["alert"] 1000 100 100 [] _ _ Fu Fp Ft
                ltac:(lia) ltac:(lia) ltac:(lia) Ho) as Hbody.
  apply Hclaim in Hbody as [Hus _]; [| lia | lia | lia].
  vm_compute in Hus. discriminate.
Qed.

(** ** The theorems at concrete inputs *)

(** The scenario of the spec: destinations [a, b] and [c] of the same
    app merge into "a|b|c". *)
Lemma merge_identical_transport_witness :
  exists n,
    notifier_of None [WechatReceiver (Some (receiver_of corp "ns" ["a"; "b"] [] []));
                      WechatReceiver (Some (receiver_of corp "ns" ["c"] [] []))]
    = Some n
    /\ (ToUser ∘ snd) <$> map_to_list (wechat n) = ["a|b|c"]
    /\ Strings.Split "a|b|c" pipe = ["a"; "b"; "c"].
Proof.
  destruct (merge_identical_transport (cfg None) tt corp corp "ns" "ns"
              (DefaultApiURL +:+ "#corp#1#ref#ns")
              ["a"; "b"] [] [] ["c"] [] [])
    as (n & Hn & Hw & Hsplit & _).
  - reflexivity.
  - reflexivity.
  - reflexivity.
  - repeat constructor; discriminate.
  - constructor.
  - constructor.
  - exists n. split; [exact Hn |]. split.
    + rewrite Hw, map_to_list_singleton. reflexivity.
    + apply Hsplit. discriminate.
Defined.

(** A task whose first attempt is answered with the token-expired code. *)
Lemma send_retries_once_witness :
  exists err σ',
    send (notifier ∅) 1%nat "alert"
      (world_of (wechat_of "a|" "" "")
         [token "T"; answer 42001 "expired"; answer 0 ""] [])
    = Done err σ'.
Proof.
  destruct (send_retries_once (notifier ∅) 1%nat "alert"
              (world_of (wechat_of "a|" "" "")
                 [token "T"; answer 42001 "expired"; answer 0 ""] [])
              (wechat_of "a|" "" "") corp)
    as (retry & first & σ1 & err & σ' & _ & Hsend & _).
  - reflexivity.
  - reflexivity.
  - by exists err, σ'.
Defined.

(** One instance with two users, one message. *)
Lemma requests_respect_caps_witness :
  exists errs σ',
    Notify (notifier {[ "k" := wechat_of "a|b" "" "" ]}) ["alert"]
      (world ∅ [token "T"; answer 0 ""] [])
    = Done errs σ'
    /\ Forall capped_message (posted (trace σ')).
Proof.
  apply (proj2 (proj2 (requests_respect_caps
                         (notifier {[ "k" := wechat_of "a|b" "" "" ]})))).
  - intros l o Hl. by vm_compute in Hl.
  - intros l o Hl. by vm_compute in Hl.
  - intros key w Hw. simpl in Hw.
    apply lookup_singleton_Some in Hw as [_ <-].
    split; [by eexists |]. by vm_compute.
  - constructor.
Defined.

(** The second iteration for [crowd]: only the party cursor moves. *)
Lemma cursors_advance_until_past_end_witness :
  exists us' ps' ts' (group' : Group) σ',
    loop_body (notifier ∅) 1%nat crowd_users crowd_parties crowd_tags
      ["alert"] 1000 100 100 [] (world_of (wechat_of "" "" "") [] [])
    = Done (us', ps', ts', group') σ'
    /\ us' = 1000 /\ ps' = 200 /\ ts' = 100.
Proof.
  destruct (cursors_advance_until_past_end (notifier ∅) 1%nat
              crowd_users crowd_parties crowd_tags ["alert"] 1000 100 100 []
              (world_of (wechat_of "" "" "") [] []) (wechat_of "" "" ""))
    as (us' & ps' & ts' & σ' & o' & Hbody & [_ Hu] & [Hp _] & [_ Ht] & _).
  - by vm_compute.
  - by vm_compute.
  - by vm_compute.
  - lia.
  - lia.
  - lia.
  - reflexivity.
  - eexists us', ps', ts', _, σ'. split; [exact Hbody |].
    split; [apply Hu; by vm_compute |].
    split; [apply Hp; by vm_compute |]. apply Ht; by vm_compute.
Defined.

(** Three users, no party, no tag. *)
Lemma batch_loop_terminates_witness :
  exists (group' : Group) σ',
    batch_loop (loop_fuel ["a"; "b"; "c"] [""] [""]) (notifier ∅) 1%nat
      ["a"; "b"; "c"] [""] [""] ["alert"] 0 0 0 []
      (world_of (wechat_of "" "" "") [] [])
    = Done group' σ'.
Proof.
  apply (proj1 (proj2 (batch_loop_terminates (notifier ∅) 1%nat
                  ["a"; "b"; "c"] [""] [""] ["alert"] []
                  (world_of (wechat_of "" "" "") [] [])
                  ltac:(by vm_compute) ltac:(by vm_compute)
                  ltac:(by vm_compute) ltac:(by eexists)))).
  apply le_n.
Defined.

(** * The further properties at concrete inputs *)

Lemma in_range_small z : - 2 ^ 62 <= z <= 2 ^ 62 -> GoInt.in_range z.
Proof. unfold GoInt.in_range, GoInt.min_int, GoInt.max_int. lia. Qed.

(** A cursor of -1 panics. *)
Lemma batch_panics_iff_witness : batch ["a"; "b"] (-1) 2 = None.
Proof.
  apply (batch_panics_iff ["a"; "b"] (-1) 2).
  - apply in_range_small. lia.
  - apply in_range_small. lia.
  - apply in_range_small. lia.
  - left. lia.
Defined.

(** Three names in two batches of two. *)
Lemma batches_cover_the_list_witness :
  exists outs last,
    batch_sequence 2 ["a"; "b"; "c"] 0 2 = Some (outs, last)
    /\ length outs = 2%nat
    /\ String.concat "" outs = terminate_all ["a"; "b"; "c"].
Proof.
  apply (batches_cover_the_list 2 ["a"; "b"; "c"] 2).
  - lia.
  - by vm_compute.
  - by vm_compute.
Defined.

Lemma batch_output_splits_back_witness :
  Strings.Split "a|b|" pipe = ["a"; "b"; ""].
Proof.
  apply (batch_output_splits_back ["a"; "b"; "c"] 0 2 "a|b|" 2).
  - apply in_range_small. lia.
  - apply in_range_small. lia.
  - by repeat constructor.
  - reflexivity.
Defined.

Lemma small_instance_single_iteration_witness :
  exists (group : Group) σ',
    dispatch (notifier ∅) ["alert"] [] (wechat_of "a|b" "c" "")
      (world ∅ [] [])
    = Done group σ'.
Proof.
  eexists _, _.
  apply (small_instance_single_iteration (notifier ∅) ["alert"] []
           (wechat_of "a|b" "c" "") (world ∅ [] [])).
  by vm_compute.
Defined.

Lemma ignored_receiver_changes_nothing_witness :
  NewWechatNotifier ([receiver "a" "" ""] ++ OtherReceiver :: [receiver "b" "" ""])
    (cfg None)
  = NewWechatNotifier ([receiver "a" "" ""] ++ [receiver "b" "" ""]) (cfg None).
Proof.
  apply (ignored_receiver_changes_nothing [receiver "a" "" ""] OtherReceiver
           [receiver "b" "" ""] (cfg None)).
  exact I.
Defined.

Lemma instances_are_configured_witness :
  exists c, Config (Sample.instance "a|b" "c" "") = Some c /\ APIURL c <> "".
Proof.
  apply (instances_are_configured [receiver "a|b" "c" ""] (cfg None)
           (Sample.built "a|b" "c" "") Sample.key).
  - by vm_compute.
  - apply lookup_singleton_eq.
Defined.

Lemma merge_any_number_witness :
  exists n,
    NewWechatNotifier (receivers_of corp "ns" [Sample.ab; Sample.c; Sample.ab])
      (cfg None) = Some n
    /\ wechat n
       = {[ Sample.key := merged corp "ns" ["a"; "b"; "c"; "a"; "b"] ["p"] [] ]}.
Proof.
  apply (merge_any_number (cfg None) tt corp "ns" Sample.key Sample.ab
           [Sample.c; Sample.ab]).
  - reflexivity.
  - reflexivity.
  - repeat constructor; discriminate.
Defined.

Lemma distinct_identities_stay_apart_witness :
  exists n,
    NewWechatNotifier
      (receivers_of corp "ns" [Sample.ab]
       ++ receivers_of Sample.other_app "ns" [Sample.c]) (cfg None) = Some n
    /\ wechat n
       = <[Sample.other_key := merged Sample.other_app "ns" ["c"] ["p"] []]>
           {[ Sample.key := merged corp "ns" ["a"; "b"] [] [] ]}
    /\ size (wechat n) = 2%nat.
Proof.
  apply (distinct_identities_stay_apart (cfg None) tt corp "ns"
           Sample.other_app "ns" Sample.key Sample.other_key
           Sample.ab Sample.c).
  - reflexivity.
  - reflexivity.
  - reflexivity.
  - by vm_compute.
  - repeat constructor; discriminate.
  - repeat constructor; discriminate.
Defined.

Lemma timeout_in_seconds_witness :
  match NewWechatNotifier [] (cfg (Some Sample.with_timeout)) with
  | Some n => timeout n = Second * 5
  | None => False
  end.
Proof.
  destruct (NewWechatNotifier [] (cfg (Some Sample.with_timeout)))
    as [n |] eqn:Hn.
  - apply (timeout_in_seconds [] (cfg (Some Sample.with_timeout))
             Sample.with_timeout Sample.five_seconds 5 n).
    + reflexivity.
    + reflexivity.
    + reflexivity.
    + lia.
    + exact Hn.
  - by vm_compute in Hn.
Defined.

Lemma global_template_needs_wechat_block_witness :
  match NewWechatNotifier [] (cfg (Some Sample.global_only)) with
  | Some n => templateName n = DefaultTemplate
  | None => False
  end.
Proof.
  destruct (NewWechatNotifier [] (cfg (Some Sample.global_only)))
    as [n |] eqn:Hn.
  - apply (global_template_needs_wechat_block [] (cfg (Some Sample.global_only))
             Sample.global_only n); [reflexivity | reflexivity | exact Hn].
  - by vm_compute in Hn.
Defined.

Lemma transport_error_is_reported_witness :
  match send (notifier ∅) 1%nat "alert"
          (world_of (wechat_of "a|" "" "")
             [token "T"; HttpError "timeout"] []) with
  | Done err _ => err = Some "timeout"
  | _ => False
  end.
Proof.
  destruct (send _ _ _ _) as [err σ' | |] eqn:Hs.
  - pose proof Hs as Hrun. vm_compute in Hrun. injection Hrun as _ Hσ.
    apply (transport_error_is_reported (notifier ∅) 1%nat "alert" _ err σ'
             (HttpError "timeout") "timeout" Hs).
    + rewrite <- Hσ. reflexivity.
    + by left.
  - by vm_compute in Hs.
  - by vm_compute in Hs.
Defined.

Lemma nil_means_answered_witness :
  match send (notifier ∅) 1%nat "alert"
          (world_of (wechat_of "a|" "" "") [token "T"; answer 0 ""] []) with
  | Done None σ' =>
      exists resp, post_reply (trace σ') = Some (Json resp)
                   /\ Code resp <> AccessTokenInvalid
  | _ => False
  end.
Proof.
  destruct (send _ _ _ _) as [[e |] σ' | |] eqn:Hs.
  - by vm_compute in Hs.
  - apply (nil_means_answered (notifier ∅) 1%nat "alert" _ σ' Hs).
  - by vm_compute in Hs.
  - by vm_compute in Hs.
Defined.

Lemma task_posts_one_body_witness :
  match send (notifier ∅) 1%nat "alert"
          (world_of (wechat_of "a|" "" "")
             [token "T"; answer 42001 "expired"; answer 0 ""] []) with
  | Done _ σ' =>
      exists o c k,
        (k <= 2)%nat
        /\ posted (trace σ') = replicate k (body_of o c "alert")
  | _ => False
  end.
Proof.
  destruct (send _ _ _ _) as [err σ' | |] eqn:Hs.
  - destruct (task_posts_one_body (notifier ∅) 1%nat "alert" _ err σ' Hs)
      as (o & c & k & _ & _ & Hk & Hp).
    exists o, c, k. split; [exact Hk |]. rewrite Hp. apply app_nil_r.
  - by vm_compute in Hs.
  - by vm_compute in Hs.
Defined.

Lemma posted_bodies_are_chunks_witness :
  match Notify (Sample.built "a|b" "c" "") ["alert"]
          (world ∅ [token "T"; answer 0 ""] []) with
  | Done _ σ' => Forall (well_formed ["alert"]) (posted (trace σ'))
  | _ => False
  end.
Proof.
  destruct (Notify _ _ _) as [errs σ' | |] eqn:HN.
  - apply (posted_bodies_are_chunks (Sample.built "a|b" "c" "") ["alert"]
             ["alert"] (world ∅ [token "T"; answer 0 ""] []) errs σ');
      [reflexivity | exact HN | constructor].
  - by vm_compute in HN.
  - by vm_compute in HN.
Defined.

Lemma nothing_to_send_witness :
  match Notify (notifier ∅) ["alert"] (world ∅ [token "T"] []) with
  | Done errs σ' => errs = [] /\ trace σ' = []
  | _ => False
  end.
Proof.
  destruct (Notify _ _ _) as [errs σ' | |] eqn:HN.
  - apply (nothing_to_send (notifier ∅) ["alert"] (world ∅ [token "T"] [])
             errs σ');
      [by left | exact HN].
  - by vm_compute in HN.
  - by vm_compute in HN.
Defined.

Lemma single_batch_sample key w :
  wechat (Sample.built "a|b" "c" "") !! key = Some w -> single_batch w.
Proof.
  intros Hw. simpl in Hw. apply lookup_singleton_Some in Hw as [_ <-].
  by vm_compute.
Qed.

Lemma attempts_are_bounded_witness :
  match Notify (Sample.built "a|b" "c" "") ["alert"]
          (world ∅ [token "T"; answer 0 ""] []) with
  | Done errs σ' =>
      (length errs <= size (wechat (Sample.built "a|b" "c" "")) * 1)%nat
      /\ (0 + size (wechat (Sample.built "a|b" "c" "")) * 1 <= attempts σ')%nat
      /\ (attempts σ'
          <= 0 + 2 * (size (wechat (Sample.built "a|b" "c" "")) * 1))%nat
  | _ => False
  end.
Proof.
  destruct (Notify _ _ _) as [errs σ' | |] eqn:HN.
  - apply (attempts_are_bounded (Sample.built "a|b" "c" "") ["alert"]
             ["alert"] (world ∅ [token "T"; answer 0 ""] []) errs σ');
      [exact single_batch_sample | reflexivity | exact HN].
  - by vm_compute in HN.
  - by vm_compute in HN.
Defined.

Lemma cached_token_is_shared_witness :
  exists σ',
    getToken (notifier ∅) 1%nat
      (Sample.cached (wechat_of "a|" "" "") [] [])
    = Done (Ok "T0") σ'
    /\ trace σ' = [] /\ replies σ' = [].
Proof.
  destruct (cached_token_is_shared (notifier ∅) 1%nat
              (Sample.cached (wechat_of "a|" "" "") [] [])
              (wechat_of "a|" "" "") corp Sample.other_endpoint "T0")
    as (σ' & Hg & Ht & Hr & _); try reflexivity.
  by exists σ'.
Defined.

Lemma invalidation_forces_refetch_witness :
  match getToken (notifier ∅) 1%nat
          (invalidToken 1%nat
             (Sample.cached (wechat_of "a|" "" "") [token "T1"] [])) with
  | Done (Ok t) σ' => cache σ' !! token_key corp = Some t
  | _ => False
  end.
Proof.
  destruct (getToken _ _ _) as [[t | e] σ' | |] eqn:Hg.
  - destruct (invalidation_forces_refetch (notifier ∅) 1%nat
                (Sample.cached (wechat_of "a|" "" "") [token "T1"] [])
                (wechat_of "a|" "" "") corp t σ' eq_refl eq_refl eq_refl Hg)
      as (url & resp & _ & _ & Hc).
    exact Hc.
  - by vm_compute in Hg.
  - by vm_compute in Hg.
  - by vm_compute in Hg.
Defined.

Lemma built_notifier_returns_witness :
  returns (Notify (Sample.built "a|b" "c" "") ["alert"])
    (world ∅ [token "T"; answer 0 ""] []).
Proof.
  apply (built_notifier_returns [receiver "a|b" "c" ""] (cfg None)
           (Sample.built "a|b" "c" "") ["alert"]).
  - by vm_compute.
  - intros key w Hw. simpl in Hw.
    apply lookup_singleton_Some in Hw as [_ <-]. by vm_compute.
  - intros l o Hl. by vm_compute in Hl.
Defined.

Lemma small_instances_get_complete_requests_witness :
  match Notify (Sample.built "a|b" "c" "") ["alert"]
          (world ∅ [token "T"; answer 0 ""] []) with
  | Done _ σ' =>
      Forall (fun m => exists w,
                (exists key,
                   wechat (Sample.built "a|b" "c" "") !! key = Some w)
                /\ carries w m)
        (posted (trace σ'))
  | _ => False
  end.
Proof.
  destruct (Notify _ _ _) as [errs σ' | |] eqn:HN.
  - apply (small_instances_get_complete_requests (Sample.built "a|b" "c" "")
             ["alert"] (world ∅ [token "T"; answer 0 ""] []) errs σ');
      [exact single_batch_sample | reflexivity | exact HN].
  - by vm_compute in HN.
  - by vm_compute in HN.
Defined.
